(** * monitoramento_noticias_paraiba: a shallow embedding of [main.py]

    The pipeline collects news-feed entries for the configured keywords,
    keeps those that mention Paraíba, derives a category, the cities and the
    candidate names found in the text, a relevance score and a short summary,
    and appends the new records to a CSV table.

    Python values are modelled as follows.
    - A [str] is a list of Unicode code points ([N]).
    - The Unicode case tables behind [str.lower] and [str.istitle] are an
      interface ([Unicode]); the white-space table behind [str.split] and
      [str.strip] is written out.
    - A [dict] is a [gmap], a [set] of strings a [gset].
    - The network, the clock and the summarisation library are an interface
      ([Capabilities]) whose answers may depend on everything that happened
      before; every interaction of [main] with the outside is recorded as an
      [event] of a chronological trace. *)

From Stdlib Require Import String Ascii.
From stdpp Require Import gmap list.
From Equations Require Import Equations.

Set Warnings "-clear-no-such-hyp".

Local Open Scope N_scope.
Local Open Scope list_scope.

(** ** Python strings *)

Definition codepoint := N.
Abbreviation str := (list N).

(** Source literals are written in UTF-8; [u] decodes them to code points. *)
Fixpoint utf8_decode (acc : N) (need : nat) (bs : list N) : str :=
  match bs with
  | [] => []
  | b :: bs' =>
      match need with
      | S n =>
          let acc' := acc * 64 + b mod 64 in
          match n with
          | O => acc' :: utf8_decode 0 0 bs'
          | S _ => utf8_decode acc' n bs'
          end
      | O =>
          if b <? 128 then b :: utf8_decode 0 0 bs'
          else if b <? 224 then utf8_decode (b mod 32) 1 bs'
          else if b <? 240 then utf8_decode (b mod 16) 2 bs'
          else utf8_decode (b mod 8) 3 bs'
      end
  end.

Definition u (s : string) : str :=
  utf8_decode 0 0 (map N_of_ascii (list_ascii_of_string s)).

(** [str.isspace] on one character, as CPython's [Py_UNICODE_ISSPACE]. *)
Definition isspace (c : codepoint) : bool :=
  ((9 <=? c) && (c <=? 13)) || ((28 <=? c) && (c <=? 32))
  || (c =? 133) || (c =? 160) || (c =? 5760)
  || ((8192 <=? c) && (c <=? 8202))
  || (c =? 8232) || (c =? 8233) || (c =? 8239) || (c =? 8287) || (c =? 12288).

(** [s.split()]: the maximal runs of characters that are not white space.
    [cur] is the run being read. *)
Fixpoint split_from (cur : str) (s : str) : list str :=
  match s with
  | [] => match cur with [] => [] | _ => [cur] end
  | c :: s' =>
      if isspace c
      then match cur with [] => split_from [] s' | _ => cur :: split_from [] s' end
      else split_from (cur ++ [c]) s'
  end.

Definition split (s : str) : list str := split_from [] s.

(** [s.split(sep)] for a one-character separator: empty pieces are kept. *)
Fixpoint split_sep_from (sep : codepoint) (cur : str) (s : str) : list str :=
  match s with
  | [] => [cur]
  | c :: s' =>
      if c =? sep then cur :: split_sep_from sep [] s'
      else split_sep_from sep (cur ++ [c]) s'
  end.

Definition split_sep (sep : codepoint) (s : str) : list str :=
  split_sep_from sep [] s.

Fixpoint lstrip (s : str) : str :=
  match s with
  | [] => []
  | c :: s' => if isspace c then lstrip s' else s
  end.

Definition rstrip (s : str) : str := rev (lstrip (rev s)).

(** [s.strip()] *)
Definition strip (s : str) : str := rstrip (lstrip s).

(** [sep.join(parts)] *)
Fixpoint join (sep : str) (parts : list str) : str :=
  match parts with
  | [] => []
  | [p] => p
  | p :: rest => p ++ sep ++ join sep rest
  end.

(** [s.replace(old, new)] for one-character [old] and [new]. *)
Definition replace_char (old new : codepoint) (s : str) : str :=
  map (fun c => if c =? old then new else c) s.

Fixpoint startswith (s pre : str) : bool :=
  match pre, s with
  | [], _ => true
  | _ :: _, [] => false
  | p :: pre', c :: s' => (c =? p) && startswith s' pre'
  end.

(** [sub in s] *)
Fixpoint str_in (sub s : str) : bool :=
  startswith s sub ||
  match s with
  | [] => false
  | _ :: s' => str_in sub s'
  end.

(** [not s] is true of the empty string only. *)
Definition is_empty (s : str) : bool :=
  match s with [] => true | _ => false end.

(** [a or b] on strings. *)
Definition str_or (a b : str) : str := if is_empty a then b else a.

(** ** The Unicode case tables *)

Class Unicode := {
  (** [s.lower()] *)
  lower : str -> str;
  (** [Py_UNICODE_ISUPPER(c) || Py_UNICODE_ISTITLE(c)] *)
  isupper : codepoint -> bool;
  (** [Py_UNICODE_ISLOWER(c)] *)
  islower : codepoint -> bool
}.

Section Strings.
Context `{Unicode}.

(** [s.istitle()]: an upper-case character may only follow an uncased one,
    a lower-case character only a cased one, and there is at least one
    cased character. *)
Fixpoint istitle_from (previous_is_cased cased : bool) (s : str) : bool :=
  match s with
  | [] => cased
  | c :: s' =>
      if isupper c then
        if previous_is_cased then false else istitle_from true true s'
      else if islower c then
        if previous_is_cased then istitle_from true true s' else false
      else istitle_from false cased s'
  end.

Definition istitle (s : str) : bool := istitle_from false false s.

End Strings.

(** ** The enrichment functions of [main.py] *)

Section Enrichment.
Context `{Unicode}.

(** [any(k in txt for k in triggers)] *)
Definition any_in (triggers : list str) (txt : str) : bool :=
  existsb (fun k => str_in k txt) triggers.

Definition classify_by_keywords (text : str) (keywords : list str) : str :=
  let txt := lower text in
  if any_in [u "homicid"; u "morte"; u "assassin"] txt then u "Homicídio"
  else if any_in [u "tráfico"; u "trafic"; u "droga"] txt then u "Tráfico"
  else if any_in [u "operação policial"; u "operação"; u "polícia"; u "policial"] txt
  then u "Operação Policial"
  else if any_in [u "roubo"; u "assalto"] txt then u "Roubo"
  else u "Outro".

(** [list(dict.fromkeys(keys))]: the keys of an insertion-ordered dict; a key
    that is already present keeps its place. *)
Definition dict_fromkeys (keys : list str) : list str :=
  fold_left (fun d k => if decide (k ∈ d) then d else d ++ [k]) keys [].

Definition extract_cities (text : str) (cities : list str) : list str :=
  let t := lower text in
  let found :=
    fold_left (fun found c => if str_in (lower c) t then found ++ [c] else found)
              cities [] in
  dict_fromkeys found.

(** The inner [while j < len(words) and words[j].istitle()] loop of
    [extract_names_heuristic]; returns [name_parts] and [j] at its exit. *)
Equations? name_run (words : list str) (name_parts : list str) (j : nat)
  : list str * nat by wf (length words - j)%nat lt :=
  name_run words name_parts j with decide (j < length words)%nat := {
    | right _ := (name_parts, j);
    | left _ with istitle (nth j words []) := {
        | true := name_run words (name_parts ++ [nth j words []]) (S j);
        | false := (name_parts, j) } }.
Proof. lia. Qed.

Lemma name_run_index words name_parts j :
  (j <= snd (name_run words name_parts j))%nat.
Proof.
  funelim (name_run words name_parts j); simpl; lia.
Qed.

(** The outer [while i < len(words)] loop; [names] is the set built so far. *)
Equations? names_loop (words : list str) (names : gset str) (i : nat)
  : gset str by wf (length words - i)%nat lt :=
  names_loop words names i with decide (i < length words)%nat := {
    | right _ := names;
    | left _ with istitle (nth i words []) && (2 <? length (nth i words []))%nat := {
        | false := names_loop words names (S i);
        | true with Equations.Prop.Logic.inspect (name_run words [nth i words []] (S i)) := {
            | exist _ (name_parts, j) Hrun with (2 <=? length name_parts)%nat := {
                | true := names_loop words ({[ join (u " ") name_parts ]} ∪ names) j;
                | false := names_loop words names (S i) } } } }.
Proof.
  - pose proof (name_run_index words [nth i words []] (S i)) as Hle.
    rewrite Hrun in Hle. simpl in Hle. lia.
  - lia.
  - lia.
Qed.

(** [list(names)] lists the set in an order the language leaves open. *)
Definition extract_names_heuristic (text : str) : list str :=
  elements (names_loop (split text) ∅ 0).

(** The score of [main]: [sum(1 for k in keywords if k.lower() in lower)] *)
Definition relevance_of (keywords : list str) (lower_text : str) : nat :=
  fold_left Nat.add
    (map (fun _ => 1%nat) (filter (fun k => str_in (lower k) lower_text = true) keywords))
    0%nat.

End Enrichment.

(** ** The outside world *)

(** One row of the table [noticias_paraiba.csv]. *)
Record Row := {
  title : str;
  link : str;
  published : str;
  fetched_at : str;
  summary : str;
  category : str;
  cities : str;
  names : str;
  relevance : nat;
  raw_text_snippet : str
}.

(** What [extract_text_from_link] reads off a parsed page: the texts of its
    [<p>] elements in document order, and the [content] of its
    [<meta name="description">] ([None] when the element or the attribute is
    missing). *)
Record Page := {
  paragraphs : list str;
  meta_content : option str
}.

Inductive message :=
| Saved (n : nat)
| NoNewRecords.

Inductive event :=
| FeedParse (rss_url : str)
| HttpGet (url : str)
| Sleep
| SaveCsv (df : list Row)
| Print (msg : message).

(** The file [keywords.json]. *)
Inductive ConfigFile :=
| NoConfigFile
| BadConfigFile
| ConfigDocument (cfg : gmap str (list str)).

(** The file [noticias_paraiba.csv]. *)
Inductive CsvFile :=
| NoCsv
| UnreadableCsv
| Csv (rows : list Row).

Inductive exn :=
| FileNotFoundError
| JSONDecodeError.

Inductive outcome :=
| Raised (e : exn)
| Returned.

Record Exit := {
  status : outcome;
  events : list event;
  csv_file : CsvFile
}.

(** The libraries and the network. An answer may depend on the history of
    events, so that two identical requests need not get the same answer. *)
Class Capabilities := {
  (** [requests.utils.requote_uri] *)
  requote_uri : str -> str;
  (** [feedparser.parse(rss_url).entries] *)
  feedparser_parse : list event -> str -> list (gmap str str);
  (** [requests.get], [raise_for_status] and the [html5lib] parse; [None] is
      any exception raised on the way. *)
  fetch_page : list event -> str -> option Page;
  (** [datetime.utcnow().isoformat()] *)
  utcnow_isoformat : list event -> str;
  (** sumy's LexRank on a Portuguese plain text; [None] is any exception. *)
  lex_rank : str -> nat -> option (list str)
}.

(** [d.get(key, default)] *)
Definition dict_get {V} (d : gmap str V) (key : str) (dflt : V) : V :=
  default dflt (d !! key).

Definition SEARCH_TOP : nat := 10.

(** ** The pipeline *)

Section Pipeline.
Context `{Unicode} `{Capabilities}.

Definition load_keywords (f : ConfigFile) : exn + gmap str (list str) :=
  match f with
  | NoConfigFile => inl FileNotFoundError
  | BadConfigFile => inl JSONDecodeError
  | ConfigDocument cfg => inr cfg
  end.

Definition build_google_news_rss (query : str) : str :=
  let q := requote_uri (query ++ u " paraíba") in
  u "https://news.google.com/rss/search?q=" ++ q ++ u "&hl=pt-BR&gl=BR&ceid=BR:pt-PT".

Definition fetch_rss_entries (tr : list event) (rss_url : str)
  : list (gmap str str) * list event :=
  (feedparser_parse tr rss_url, tr ++ [FeedParse rss_url]).

Definition extract_text_from_link (tr : list event) (url : str) : str * list event :=
  let tr' := tr ++ [HttpGet url] in
  match fetch_page tr url with
  | None => ([], tr')
  | Some page =>
      let text := join [10] (paragraphs page) in
      let text :=
        if (length text <? 200)%nat then
          match meta_content page with
          | Some content => if is_empty content then text else content
          | None => text
          end
        else text in
      (strip text, tr')
  end.

Definition simple_summarize (text : str) (sentences_count : nat) : str :=
  if is_empty text || (length (split text) <? 30)%nat then strip text
  else
    match lex_rank text sentences_count with
    | Some sentences => join (u " ") sentences
    | None => strip (join (u " ") (take sentences_count (split_sep 46 text)))
    end.

Definition load_existing_csv (f : CsvFile) : list Row :=
  match f with
  | Csv rows => rows
  | NoCsv | UnreadableCsv => []
  end.

(** [f"{title}_{published}"] *)
Definition make_key (title published : str) : str :=
  title ++ u "_" ++ published.

Definition row_key (r : Row) : str := make_key (title r) (published r).

Definition entry_key (e : gmap str str) : str :=
  make_key (dict_get e (u "title") []) (dict_get e (u "published") []).

(** The variables of [main] that its loops update. *)
Record Run := {
  trace : list event;
  rows : list Row;
  seen_keys : gset str
}.

(** [article_text] after the fall-back to the feed's own summary. *)
Definition resolve_text (tr : list event) (e : gmap str str) : str * list event :=
  let link := dict_get e (u "link") [] in
  let summary_rss := str_or (dict_get e (u "summary") []) (dict_get e (u "description") []) in
  let '(article_text, tr') := extract_text_from_link tr link in
  (if is_empty article_text then summary_rss else article_text, tr').

(** [lower] of [main]: the text the region filter and the score look at. *)
Definition lower_of (title article_text : str) : str :=
  lower (title ++ u " " ++ article_text).

Definition mentions_paraiba (lower_text : str) : bool :=
  str_in (u "paraíba") lower_text || str_in (u "paraiba") lower_text.

Definition make_row (keywords cities : list str) (tr : list event)
    (title link published article_text : str) : Row :=
  let lower_text := lower_of title article_text in
  let resumo := simple_summarize article_text 3 in
  let tipo := classify_by_keywords (title ++ u " " ++ article_text) keywords in
  let local := extract_cities (title ++ u " " ++ article_text) cities in
  let nomes := extract_names_heuristic article_text in
  {| title := title;
     link := link;
     published := published;
     fetched_at := utcnow_isoformat tr;
     summary := resumo;
     category := tipo;
     cities := join (u ";") local;
     names := join (u ";") nomes;
     relevance := relevance_of keywords lower_text;
     raw_text_snippet := strip (replace_char 10 32 (take 800 article_text)) |}.

(** The body of [for e in entries]. *)
Definition process_entry (keywords cities : list str) (st : Run) (e : gmap str str) : Run :=
  let title := dict_get e (u "title") [] in
  let link := dict_get e (u "link") [] in
  let published := dict_get e (u "published") [] in
  let key := make_key title published in
  if decide (key ∈ seen_keys st) then st
  else
    let '(article_text, tr) := resolve_text (trace st) e in
    if negb (mentions_paraiba (lower_of title article_text))
    then {| trace := tr; rows := rows st; seen_keys := seen_keys st |}
    else
      let row := make_row keywords cities tr title link published article_text in
      {| trace := tr ++ [Sleep];
         rows := rows st ++ [row];
         seen_keys := {[ key ]} ∪ seen_keys st |}.

(** The body of [for kw in keywords]. *)
Definition process_keyword (keywords cities : list str) (st : Run) (kw : str) : Run :=
  let rss := build_google_news_rss kw in
  let '(entries, tr) := fetch_rss_entries (trace st) rss in
  fold_left (process_entry keywords cities) (take SEARCH_TOP entries)
    {| trace := tr; rows := rows st; seen_keys := seen_keys st |}.

(** [seen_keys] as filled from the rows already in the table. *)
Definition existing_keys (existing : list Row) : gset str :=
  fold_left (fun seen r => {[ row_key r ]} ∪ seen) existing ∅.

(** The state of [main] when its [for kw in keywords] loop ends. *)
Definition collect (keywords cities : list str) (existing : list Row) (tr0 : list event) : Run :=
  fold_left (process_keyword keywords cities) keywords
    {| trace := tr0; rows := []; seen_keys := existing_keys existing |}.

(** [main], started after the events [tr0] with the two files as given. *)
Definition main (config : ConfigFile) (csv : CsvFile) (tr0 : list event) : Exit :=
  match load_keywords config with
  | inl e => {| status := Raised e; events := tr0; csv_file := csv |}
  | inr cfg =>
      let keywords := dict_get cfg (u "keywords") [] in
      let cities := dict_get cfg (u "cities") [] in
      let existing := load_existing_csv csv in
      let st := collect keywords cities existing tr0 in
      let new_df := rows st in
      let df_final :=
        match existing with
        | [] => new_df
        | _ :: _ => existing ++ new_df
        end in
      match df_final with
      | _ :: _ =>
          {| status := Returned;
             events := trace st ++ [SaveCsv df_final; Print (Saved (length df_final))];
             csv_file := Csv df_final |}
      | [] =>
          {| status := Returned;
             events := trace st ++ [Print NoNewRecords];
             csv_file := csv |}
      end
  end.

End Pipeline.

(** ** The date of an entry *)

(** [calendar]'s leap years and month lengths, as [datetime] checks them. *)
Definition is_leap (year : Z) : bool :=
  ((year mod 4 =? 0) && (negb (year mod 100 =? 0) || (year mod 400 =? 0)))%Z.

Definition days_in_month (year month : Z) : Z :=
  (if month =? 2 then (if is_leap year then 29 else 28)
   else if (month =? 4) || (month =? 6) || (month =? 9) || (month =? 11) then 30
   else 31)%Z.

(** The last decimal digit of [n], as a character. *)
Definition digit (n : Z) : codepoint := Z.to_N (48 + n mod 10).

(** ["%02d" % n] and ["%04d" % n] for [n] within two and four digits. *)
Definition pad2 (n : Z) : str := [digit (n / 10); digit n].

Definition pad4 (n : Z) : str := [digit (n / 1000); digit (n / 100); digit (n / 10); digit n].

(** The arguments [datetime] accepts: a year, a month and a day, then up to
    three of hour, minute and second, all in range. *)
Definition valid_datetime (args : list Z) : bool :=
  match args with
  | year :: month :: day :: rest =>
      ((length rest <=? 3)%nat
       && (1 <=? year) && (year <=? 9999)
       && (1 <=? month) && (month <=? 12)
       && (1 <=? day) && (day <=? days_in_month year month)
       && (0 <=? nth 0 rest 0) && (nth 0 rest 0 <=? 23)
       && (0 <=? nth 1 rest 0) && (nth 1 rest 0 <=? 59)
       && (0 <=? nth 2 rest 0) && (nth 2 rest 0 <=? 59))%Z
  | _ => false
  end.

(** [datetime] applied to the arguments [args], then [isoformat()]; [None] is
    the [TypeError] or [ValueError] of the constructor. *)
Definition datetime_isoformat (args : list Z) : option str :=
  if valid_datetime args then
    Some (pad4 (nth 0 args 0%Z) ++ [45] ++ pad2 (nth 1 args 0%Z) ++ [45]
          ++ pad2 (nth 2 args 0%Z) ++ [84] ++ pad2 (nth 3 args 0%Z) ++ [58]
          ++ pad2 (nth 4 args 0%Z) ++ [58] ++ pad2 (nth 5 args 0%Z))
  else None.

(** [normalize_date(d)] for a tuple [d] of integers; [str_d] is [str(d)]. *)
Definition normalize_date (str_d : str) (d : list Z) : str :=
  match datetime_isoformat (take 6 d) with
  | Some iso => iso
  | None => str_d
  end.

(** ** The notions the properties are stated with *)

(** [sub] occurs in [s] as a substring. *)
Definition occurs_in (sub s : str) : Prop := ∃ a b, s = a ++ sub ++ b.


(** The five category labels. *)
Definition labels : list str :=
  [u "Homicídio"; u "Tráfico"; u "Operação Policial"; u "Roubo"; u "Outro"].

(** The trigger lists of [classify_by_keywords], in the order it tries them. *)
Definition homicide_triggers : list str := [u "homicid"; u "morte"; u "assassin"].

Definition trafficking_triggers : list str := [u "tráfico"; u "trafic"; u "droga"].

Definition police_triggers : list str :=
  [u "operação policial"; u "operação"; u "polícia"; u "policial"].

Definition theft_triggers : list str := [u "roubo"; u "assalto"].

(** The specification's table of rules, in priority order. *)
Definition rules : list (str * list str) :=
  [(u "Homicídio", homicide_triggers);
   (u "Tráfico", trafficking_triggers);
   (u "Operação Policial", police_triggers);
   (u "Roubo", theft_triggers)].

(** The specification's reading of the table: [first_match table txt label]
    when [label] is the label of the first rule one of whose triggers occurs
    in [txt] as a substring, or is "Outro" when no rule has such a trigger. *)
Inductive first_match : list (str * list str) → str → str → Prop :=
| first_match_none txt :
    first_match [] txt (u "Outro")
| first_match_here label triggers table txt k :
    k ∈ triggers → occurs_in k txt →
    first_match ((label, triggers) :: table) txt label
| first_match_next label triggers table txt other :
    (∀ k, k ∈ triggers → ¬ occurs_in k txt) →
    first_match table txt other →
    first_match ((label, triggers) :: table) txt other.

(** The specification's count: every configured keyword is looked at once
    and counts one when its lower-case form occurs in the text. *)
Fixpoint keyword_hits `{Unicode} (keywords : list str) (txt : str) : nat :=
  match keywords with
  | [] => 0%nat
  | k :: ks => ((if str_in (lower k) txt then 1 else 0) + keyword_hits ks txt)%nat
  end.

(** The elements of a list at their first occurrence. *)
Fixpoint first_occurrences (l : list str) : list str :=
  match l with
  | [] => []
  | x :: l' => x :: filter (λ y, y ≠ x) (first_occurrences l')
  end.

(** What the outer loop adds to the set: a run of at least two consecutive
    title-cased words of the text, the first of them longer than two
    characters, joined by single spaces. *)
Definition title_run `{Unicode} (words : list str) (name : str) : Prop :=
  ∃ before w rest after,
    words = before ++ (w :: rest) ++ after ∧
    name = join (u " ") (w :: rest) ∧
    (2 ≤ length (w :: rest))%nat ∧
    (2 < length w)%nat ∧
    Forall (λ w, istitle w = true) (w :: rest).

(** The test [main.py] applies to the first word of a name:
    [w.istitle() and len(w) > 2]. *)
Definition qualifies `{Unicode} (w : str) : bool :=
  istitle w && (2 <? length w)%nat.


(** The number a digit stands for, and the six numbers of a string
    [YYYY-MM-DDTHH:MM:SS]. *)
Definition digit_value (c : codepoint) : Z := (Z.of_N c - 48)%Z.

Definition iso_fields (s : str) : option (list Z) :=
  match s with
  | [y1; y2; y3; y4; 45; m1; m2; 45; d1; d2; 84; h1; h2; 58; n1; n2; 58; s1; s2] =>
      let two a b := (digit_value a * 10 + digit_value b)%Z in
      Some [(two y1 y2 * 100 + two y3 y4)%Z; two m1 m2; two d1 d2; two h1 h2; two n1 n2; two s1 s2]
  | _ => None
  end.

Definition is_feed_parse (ev : event) : bool :=
  match ev with FeedParse _ => true | _ => false end.

Definition is_http_get (ev : event) : bool :=
  match ev with HttpGet _ => true | _ => false end.

Definition is_sleep (ev : event) : bool :=
  match ev with Sleep => true | _ => false end.

Definition is_save_csv (ev : event) : bool :=
  match ev with SaveCsv _ => true | _ => false end.

Definition is_print (ev : event) : bool :=
  match ev with Print _ => true | _ => false end.

(** The number of events of one kind. *)
Fixpoint count (kind : event → bool) (evs : list event) : nat :=
  match evs with
  | [] => 0
  | ev :: evs' => ((if kind ev then 1 else 0) + count kind evs')%nat
  end.

(** From [st] to [st'] the loops sent [feeds] feed queries and at most
    [gets] page requests, slept once per new row, requested at least one page
    per new row, and neither wrote nor printed. *)
Definition advances (feeds gets : nat) (st st' : Run) : Prop :=
  ∃ evs new,
    trace st' = trace st ++ evs ∧
    rows st' = rows st ++ new ∧
    count is_feed_parse evs = feeds ∧
    (count is_http_get evs ≤ gets)%nat ∧
    count is_sleep evs = length new ∧
    (length new ≤ count is_http_get evs)%nat ∧
    count is_save_csv evs = 0%nat ∧
    count is_print evs = 0%nat.

(** What a row takes over from its entry. *)
Definition entry_fields (e : gmap str str) : str * str * str :=
  (dict_get e (u "title") [], dict_get e (u "link") [], dict_get e (u "published") []).

Definition row_fields (r : Row) : str * str * str := (title r, link r, published r).

Section Statements.
Context `{Unicode} `{Capabilities}.


(** The region filter: the lower-cased title, a space and the text contain
    "paraíba" or "paraiba". *)
Definition region_ok (title text : str) : Prop :=
  occurs_in (u "paraíba") (lower (title ++ u " " ++ text)) ∨
  occurs_in (u "paraiba") (lower (title ++ u " " ++ text)).

(** A row made from a feed entry and its resolved text, which passes the
    region filter. *)
Definition accepted_row (keywords cities : list str) (r : Row) : Prop :=
  ∃ tr e,
    r = make_row keywords cities (snd (resolve_text tr e)) (dict_get e (u "title") [])
          (dict_get e (u "link") []) (dict_get e (u "published") [])
          (fst (resolve_text tr e)) ∧
    region_ok (title r) (fst (resolve_text tr e)).

End Statements.

(** ** The case tables on Basic Latin and Latin-1 Supplement

    [latin1] agrees with CPython on strings whose code points are all below
    U+0100; it is used to evaluate the functions on concrete texts of that
    range. *)

Definition latin1_isupper (c : codepoint) : bool :=
  ((65 <=? c) && (c <=? 90)) || ((192 <=? c) && (c <=? 214))
  || ((216 <=? c) && (c <=? 222)).

Definition latin1_islower (c : codepoint) : bool :=
  ((97 <=? c) && (c <=? 122)) || (c =? 170) || (c =? 181) || (c =? 186)
  || ((223 <=? c) && (c <=? 246)) || ((248 <=? c) && (c <=? 255)).

Definition latin1_lower (s : str) : str :=
  map (fun c => if latin1_isupper c then c + 32 else c) s.

Definition latin1 : Unicode :=
  {| lower := latin1_lower; isupper := latin1_isupper; islower := latin1_islower |}.

(** ** A scripted outside world, for evaluating [main] *)

Definition utf8_encode (c : codepoint) : list N :=
  if c <? 128 then [c]
  else if c <? 2048 then [192 + c / 64; 128 + c mod 64]
  else if c <? 65536 then [224 + c / 4096; 128 + (c / 64) mod 64; 128 + c mod 64]
  else [240 + c / 262144; 128 + (c / 4096) mod 64; 128 + (c / 64) mod 64; 128 + c mod 64].

Definition hex_digit (n : N) : N := if n <? 10 then 48 + n else 55 + n.

Definition is_uri_safe (c : codepoint) : bool :=
  ((48 <=? c) && (c <=? 57)) || ((65 <=? c) && (c <=? 90)) || ((97 <=? c) && (c <=? 122))
  || existsb (N.eqb c) (u "_.-~!#$%&'()*+,/:;=?@[]").

(** [requote_uri] on a string without a [%] escape of an unreserved
    character: what is not safe in a URI is UTF-8 encoded and escaped. *)
Definition percent_encode (s : str) : str :=
  flat_map (fun c =>
    if is_uri_safe c then [c]
    else flat_map (fun b => [37; hex_digit (b / 16); hex_digit (b mod 16)]) (utf8_encode c)) s.

(** Every feed query is answered by [entries], the page at [url] is
    [pages url], the clock stands still and LexRank is not installed. *)
Definition scripted (entries : list (gmap str str)) (pages : str -> option Page)
  : Capabilities :=
  {| requote_uri := percent_encode;
     feedparser_parse := fun _ _ => entries;
     fetch_page := fun _ url => pages url;
     utcnow_isoformat := fun _ => u "2024-05-01T12:00:00";
     lex_rank := fun _ _ => None |}.

(** The feed is empty and no page can be fetched. *)
Definition offline : Capabilities := scripted [] (fun _ => None).

(** ** Inputs for evaluating [main] *)

Definition demo_config : gmap str (list str) :=
  <[u "keywords" := [u "violência"]]>
    (<[u "cities" := [u "João Pessoa"; u "Campina Grande"]]> ∅).

Definition feed_entry (title link published : str) : gmap str str :=
  <[u "title" := title]> (<[u "link" := link]> (<[u "published" := published]> ∅)).




Definition crime : gmap str str :=
  feed_entry (u "Crime na Paraíba") (u "https://example.org/crime")
    (u "Wed, 01 May 2024 09:00:00 GMT").

Definition crime_page : Page :=
  {| paragraphs := [u "Um roubo foi registrado em João Pessoa.";
                    u "A violência preocupa os moradores."];
     meta_content := None |}.

Definition crime_world : Capabilities :=
  scripted [crime; crime]
    (λ url, if decide (url = u "https://example.org/crime") then Some crime_page else None).

(** A report of more than 30 words. *)
Definition long_report : str :=
  u "A Polícia Civil prendeu dois suspeitos de tráfico em Campina Grande. "
  ++ u "Segundo o delegado, a operação começou na madrugada de terça-feira. "
  ++ u "Os presos foram levados para a Central de Polícia. "
  ++ u "A investigação continua na Paraíba e em estados vizinhos.".

(** The table the first run of [main_crime_ex] leaves. *)
Definition crime_table : CsvFile :=
  csv_file (@main latin1 crime_world (ConfigDocument demo_config) NoCsv []).

(** ** Evaluation *)

Example split_ex :
  split (u "  João" ++ [10; 9] ++ u "Pessoa  registra ") = [u "João"; u "Pessoa"; u "registra"].
Proof. vm_compute. reflexivity. Qed.

Example strip_ex : strip ([10] ++ u "  Homem preso  " ++ [9]) = u "Homem preso".
Proof. vm_compute. reflexivity. Qed.

Example split_sep_ex : split_sep 46 (u "Um. Dois.") = [u "Um"; u " Dois"; []].
Proof. vm_compute. reflexivity. Qed.

Example istitle_ex :
  map (@istitle latin1) [u "Paraíba,"; u "De"; u "PB"; u "roubo"; u "2024"; u "A"]
  = [true; true; false; false; false; true].
Proof. vm_compute. reflexivity. Qed.

(** The trigger "homicid" has no accent: it matches "homicida", not
    "homicídio". *)
Example classify_ex :
  map (λ text, @classify_by_keywords latin1 text [])
    [u "Suspeito de homicídio é preso"; u "Homicida é preso após assalto";
     u "Polícia apreende droga"; u "Festa junina em Campina Grande"]
  = [u "Outro"; u "Homicídio"; u "Tráfico"; u "Outro"].
Proof. vm_compute. reflexivity. Qed.

Example extract_names_ex :
  @extract_names_heuristic latin1 (u "O delegado Carlos Alberto da Silva falou em Patos")
  = [u "Carlos Alberto"].
Proof. vm_compute. reflexivity. Qed.

Example build_google_news_rss_ex :
  @build_google_news_rss offline (u "violência")
  = u "https://news.google.com/rss/search?q=viol%C3%AAncia%20para%C3%ADba&hl=pt-BR&gl=BR&ceid=BR:pt-PT".
Proof. vm_compute. reflexivity. Qed.

(** An empty table, one keyword, a feed with twice the same entry: one row is
    written, the second entry is skipped without a request. *)
Example main_crime_ex :
  @main latin1 crime_world (ConfigDocument demo_config) NoCsv []
  = let row :=
      {| title := u "Crime na Paraíba";
         link := u "https://example.org/crime";
         published := u "Wed, 01 May 2024 09:00:00 GMT";
         fetched_at := u "2024-05-01T12:00:00";
         summary := [85; 109; 32] ++ u "roubo foi registrado em João Pessoa."
                    ++ [10] ++ u "A violência preocupa os moradores.";
         category := u "Roubo";
         cities := u "João Pessoa";
         names := u "João Pessoa. A";
         relevance := 1;
         raw_text_snippet := u "Um roubo foi registrado em João Pessoa. A violência preocupa os moradores." |} in
    {| status := Returned;
       events := [FeedParse (@build_google_news_rss crime_world (u "violência"));
                  HttpGet (u "https://example.org/crime");
                  Sleep;
                  SaveCsv [row];
                  Print (Saved 1)];
       csv_file := Csv [row] |}.
Proof. vm_compute. reflexivity. Qed.

Example normalize_date_ex :
  normalize_date (u "(2024, 5, 1, 9, 0, 7, 2, 122, 0)") [2024; 5; 1; 9; 0; 7; 2; 122; 0]%Z
  = u "2024-05-01T09:00:07" ∧
  normalize_date (u "(2023, 2, 29)") [2023; 2; 29]%Z = u "(2023, 2, 29)" ∧
  normalize_date (u "(2024, 2, 29)") [2024; 2; 29]%Z = u "2024-02-29T00:00:00" ∧
  normalize_date (u "(2024, 5)") [2024; 5]%Z = u "(2024, 5)".
Proof. vm_compute. done. Qed.

(** ** Facts about strings *)

Lemma startswith_spec s pre : startswith s pre = true ↔ ∃ t, s = pre ++ t.
Proof.
  revert s. induction pre as [|p pre IH]; intros [|c s]; simpl.
  - split; [exists []; done | done].
  - split; [eauto | done].
  - split; [done | intros [t Ht]; discriminate].
  - rewrite andb_true_iff, N.eqb_eq, IH. split.
    + intros [-> [t ->]]. eauto.
    + intros [t Ht]. injection Ht as -> ->. eauto.
Qed.

Lemma str_in_spec sub s : str_in sub s = true ↔ occurs_in sub s.
Proof.
  unfold occurs_in. induction s as [|c s IH].
  - cbn [str_in]. rewrite orb_false_r, startswith_spec. split.
    + intros [t Ht]. exists [], t. done.
    + intros (a & b & Hab). destruct a; [eauto|discriminate].
  - cbn [str_in]. rewrite orb_true_iff, startswith_spec, IH. split.
    + intros [[t Ht] | (a & b & ->)].
      * exists [], t. done.
      * exists (c :: a), b. done.
    + intros (a & b & Hab). destruct a as [|c' a].
      * left. eauto.
      * right. injection Hab as -> ->. eauto.
Qed.





(** A string without the character [c] that occurs in [a ++ c :: b] occurs
    in [a] or in [b]. *)
Lemma occurs_in_sep (sub a b : str) (c : codepoint) :
  c ∉ sub → occurs_in sub (a ++ c :: b) → occurs_in sub a ∨ occurs_in sub b.
Proof.
  intros Hc (p & q & Heq). apply app_eq_inv in Heq as [(k & -> & Hk) | (k & -> & Hk)].
  - symmetry in Hk. apply app_eq_inv in Hk as [(k' & -> & Hk') | (k' & -> & Hk')].
    + left. exists p, k'. done.
    + destruct k' as [|c' k'].
      * left. exists p, []. by rewrite !app_nil_r.
      * injection Hk' as -> _. exfalso. apply Hc. set_solver.
  - destruct k as [|c' k].
    + destruct sub as [|c' sub].
      * left. exists a, []. by rewrite !app_nil_r.
      * injection Hk as -> _. exfalso. apply Hc. set_solver.
    + injection Hk as _ ->. right. exists k, q. done.
Qed.

Lemma occurs_in_app_l (sub a b : str) : occurs_in sub a → occurs_in sub (a ++ b).
Proof. intros (p & q & ->). exists p, (q ++ b). by rewrite <- !app_assoc. Qed.

Lemma occurs_in_app_r (sub a b : str) : occurs_in sub b → occurs_in sub (a ++ b).
Proof. intros (p & q & ->). exists (a ++ p), q. by rewrite <- !app_assoc. Qed.

(** ** The classifier *)

Lemma any_in_spec triggers txt :
  any_in triggers txt = true ↔ ∃ k, k ∈ triggers ∧ occurs_in k txt.
Proof.
  unfold any_in. rewrite existsb_exists. split.
  - intros (k & Hk & Hin). exists k. split; [by apply list_elem_of_In|by apply str_in_spec].
  - intros (k & Hk & Hin). exists k. split; [by apply list_elem_of_In|by apply str_in_spec].
Qed.

Lemma any_in_false triggers txt :
  any_in triggers txt = false ↔ ∀ k, k ∈ triggers → ¬ occurs_in k txt.
Proof.
  rewrite <- not_true_iff_false, any_in_spec. naive_solver.
Qed.

(** The rule table has one label for a text. *)
Lemma first_match_unique table txt l1 l2 :
  first_match table txt l1 → first_match table txt l2 → l1 = l2.
Proof.
  intros H1. revert l2.
  induction H1 as [txt|label triggers table txt k Hk Hocc
                   |label triggers table txt other Hnone _ IH];
    intros l2 H2; inversion H2; subst; try done.
  - exfalso. naive_solver.
  - exfalso. naive_solver.
  - by apply IH.
Qed.

Lemma classify_first_match `{Unicode} text keywords :
  first_match rules (lower text) (classify_by_keywords text keywords).
Proof.
  unfold classify_by_keywords, rules.
  fold homicide_triggers trafficking_triggers police_triggers theft_triggers.
  destruct (any_in homicide_triggers (lower text)) eqn:E1.
  { apply any_in_spec in E1 as (k & Hk & Hocc). by eapply first_match_here. }
  apply first_match_next; [by apply any_in_false|].
  destruct (any_in trafficking_triggers (lower text)) eqn:E2.
  { apply any_in_spec in E2 as (k & Hk & Hocc). by eapply first_match_here. }
  apply first_match_next; [by apply any_in_false|].
  destruct (any_in police_triggers (lower text)) eqn:E3.
  { apply any_in_spec in E3 as (k & Hk & Hocc). by eapply first_match_here. }
  apply first_match_next; [by apply any_in_false|].
  destruct (any_in theft_triggers (lower text)) eqn:E4.
  { apply any_in_spec in E4 as (k & Hk & Hocc). by eapply first_match_here. }
  apply first_match_next; [by apply any_in_false|].
  constructor.
Qed.

(** C4. For every text the classifier returns one of the five labels
    "Homicídio", "Tráfico", "Operação Policial", "Roubo", "Outro", which are
    pairwise different and none of them empty; the label is the one of the
    first rule, in the order homicide, trafficking, police operation, theft,
    that has a trigger occurring as a substring of the lower-cased text, and
    no other label is; it is "Outro" exactly when no trigger of any rule
    occurs; a text with both a homicide trigger and a theft trigger is
    labelled "Homicídio". *)
Theorem classify_total_first_match `{Unicode} (text : str) (keywords : list str) :
  NoDup labels ∧
  classify_by_keywords text keywords ∈ labels ∧
  classify_by_keywords text keywords ≠ [] ∧
  first_match rules (lower text) (classify_by_keywords text keywords) ∧
  (∀ label, first_match rules (lower text) label →
            label = classify_by_keywords text keywords) ∧
  (classify_by_keywords text keywords = u "Outro" ↔
   ∀ k, k ∈ homicide_triggers ++ trafficking_triggers ++ police_triggers ++ theft_triggers →
        ¬ occurs_in k (lower text)) ∧
  (∀ h r, h ∈ homicide_triggers → r ∈ theft_triggers →
          occurs_in h (lower text) → occurs_in r (lower text) →
          classify_by_keywords text keywords = u "Homicídio").
Proof.
  split; [|split; [|split; [|split; [|split; [|split]]]]].
  - apply (bool_decide_unpack _). vm_compute. exact I.
  - unfold classify_by_keywords, labels.
    repeat (match goal with |- context [any_in ?t ?x] => destruct (any_in t x) end);
      rewrite !elem_of_cons; auto 10.
  - unfold classify_by_keywords.
    repeat (match goal with |- context [any_in ?t ?x] => destruct (any_in t x) end);
      vm_compute; discriminate.
  - apply classify_first_match.
  - intros label Hlabel.
    apply (first_match_unique rules (lower text)); [done|apply classify_first_match].
  - unfold classify_by_keywords.
    fold homicide_triggers trafficking_triggers police_triggers theft_triggers.
    destruct (any_in homicide_triggers (lower text)) eqn:E1;
      [|destruct (any_in trafficking_triggers (lower text)) eqn:E2;
        [|destruct (any_in police_triggers (lower text)) eqn:E3;
          [|destruct (any_in theft_triggers (lower text)) eqn:E4]]].
    1-4: split; [intros Heq; vm_compute in Heq; discriminate|];
      intros Hnone;
      match goal with
      | E : any_in _ _ = true |- _ =>
          apply any_in_spec in E as (k & Hk & Hocc); exfalso; apply (Hnone k);
          [rewrite !elem_of_app; auto|done]
      end.
    split; [intros _|done].
    rewrite any_in_false in E1, E2, E3, E4.
    intros k. rewrite !elem_of_app. naive_solver.
  - intros h r Hh _ Hoh _. unfold classify_by_keywords.
    fold homicide_triggers.
    replace (any_in homicide_triggers (lower text)) with true; [done|].
    symmetry. apply any_in_spec. eauto.
Qed.

Lemma classify_total_first_match_witness :
  @classify_by_keywords latin1 (u "Assalto termina em morte no Sertão") [] = u "Homicídio".
Proof.
  apply (proj2 (proj2 (proj2 (proj2 (proj2 (proj2
    (@classify_total_first_match latin1 (u "Assalto termina em morte no Sertão") []))))))
    (u "morte") (u "assalto")).
  - apply (bool_decide_unpack _). vm_compute. exact I.
  - apply (bool_decide_unpack _). vm_compute. exact I.
  - apply str_in_spec. vm_compute. reflexivity.
  - apply str_in_spec. vm_compute. reflexivity.
Defined.

(** C10. The label does not depend on the configured keywords: for every text
    and any two keyword lists the classifier returns the same label. *)
Theorem classify_ignores_keywords `{Unicode} (text : str) (k1 k2 : list str) :
  classify_by_keywords text k1 = classify_by_keywords text k2.
Proof. reflexivity. Qed.

(** ** The summarizer *)

(** C5. For a text that is empty or has fewer than 30 white-space delimited
    tokens the summarizer returns the text stripped of leading and trailing
    white space, whatever the sentence count and whatever LexRank would do. *)
Theorem summarize_short_noop `{Capabilities} (text : str) (sentences_count : nat) :
  text = [] ∨ (length (split text) < 30)%nat →
  simple_summarize text sentences_count = strip text.
Proof.
  intros Hshort. unfold simple_summarize.
  destruct Hshort as [-> | Hlen]; [done|].
  apply Nat.ltb_lt in Hlen. rewrite Hlen, orb_true_r. done.
Qed.

Lemma summarize_short_noop_witness :
  @simple_summarize offline (u "  Homem é preso em Patos.  ") 3 = u "Homem é preso em Patos.".
Proof.
  rewrite (@summarize_short_noop offline (u "  Homem é preso em Patos.  ") 3).
  - vm_compute. reflexivity.
  - right. vm_compute. lia.
Defined.

(** ** The relevance score *)

Lemma fold_add_ones (l : list str) (n : nat) :
  fold_left Nat.add (map (λ _, 1%nat) l) n = (n + length l)%nat.
Proof.
  revert n. induction l as [|x l IH]; intros n; simpl; [lia|].
  rewrite IH. lia.
Qed.

Lemma relevance_cons `{Unicode} k ks txt :
  relevance_of (k :: ks) txt
  = ((if str_in (lower k) txt then 1 else 0) + relevance_of ks txt)%nat.
Proof.
  unfold relevance_of. rewrite !fold_add_ones, filter_cons.
  destruct (str_in (lower k) txt); case_decide; try done; simpl; lia.
Qed.

Lemma relevance_hits `{Unicode} keywords txt :
  relevance_of keywords txt = keyword_hits keywords txt.
Proof.
  induction keywords as [|k ks IH]; [done|].
  rewrite relevance_cons, IH. done.
Qed.

Lemma relevance_bound `{Unicode} keywords txt :
  (relevance_of keywords txt ≤ length keywords)%nat.
Proof.
  induction keywords as [|k ks IH]; [done|].
  rewrite relevance_cons. simpl. destruct (str_in (lower k) txt); lia.
Qed.

Lemma relevance_repeat_a n :
  @relevance_of latin1 (repeat (u "a") n) (u "a") = n.
Proof.
  induction n as [|n IH]; [done|].
  change (repeat (u "a") (S n)) with (u "a" :: repeat (u "a") n).
  rewrite relevance_cons, IH. reflexivity.
Qed.

(** C6. The relevance of a row is the number of configured keywords whose
    lower-case form occurs in the lower-cased title-plus-body text: every
    keyword adds one or nothing, however often it occurs, so the score is at
    most the number of keywords, and no other bound holds (n keywords can
    give n). With the keywords "homicídio" and "tráfico" the text
    "Homicídio registrado; suspeita de tráfico" scores 2. *)
Theorem relevance_counts_keywords :
  (∀ (U : Unicode) (C : Capabilities) keywords cities tr title link published text,
     relevance (make_row keywords cities tr title link published text)
     = keyword_hits keywords (lower (title ++ u " " ++ text))) ∧
  (∀ (U : Unicode) keywords txt,
     relevance_of keywords txt = keyword_hits keywords txt ∧
     (relevance_of keywords txt ≤ length keywords)%nat) ∧
  (∀ (U : Unicode) k ks txt,
     relevance_of (k :: ks) txt
     = ((if str_in (lower k) txt then 1 else 0) + relevance_of ks txt)%nat) ∧
  (∀ n, @relevance_of latin1 (repeat (u "a") n) (u "a") = n) ∧
  @relevance_of latin1 [u "tráfico"] (@lower latin1 (u "Tráfico, tráfico e mais tráfico")) = 1%nat ∧
  @relevance_of latin1 [u "homicídio"; u "tráfico"]
     (@lower latin1 (u "Homicídio registrado;" ++ u " " ++ u "suspeita de tráfico")) = 2%nat.
Proof.
  split; [|split; [|split; [|split; [|split]]]].
  - intros. simpl. apply relevance_hits.
  - intros. split; [apply relevance_hits | apply relevance_bound].
  - intros. apply relevance_cons.
  - apply relevance_repeat_a.
  - vm_compute. reflexivity.
  - vm_compute. reflexivity.
Qed.

(** ** The cities *)

Lemma first_occurrences_elem_of l x : x ∈ first_occurrences l ↔ x ∈ l.
Proof.
  induction l as [|a l IH]; [done|]. simpl.
  rewrite !elem_of_cons, list_elem_of_filter, IH.
  destruct (decide (x = a)); naive_solver.
Qed.

Lemma first_occurrences_NoDup l : NoDup (first_occurrences l).
Proof.
  induction l as [|a l IH]; simpl; [constructor|].
  apply NoDup_cons. split.
  - rewrite list_elem_of_filter. naive_solver.
  - by apply NoDup_filter.
Qed.

Lemma first_occurrences_sublist l : first_occurrences l `sublist_of` l.
Proof.
  induction l as [|a l IH]; simpl; [constructor|].
  apply sublist_skip. etrans; [apply sublist_filter|done].
Qed.

Lemma first_occurrences_id l : NoDup l → first_occurrences l = l.
Proof.
  induction 1 as [|a l Hnotin Hnd IH]; [done|]. simpl. rewrite IH. f_equal.
  clear IH Hnd. induction l as [|b l IHl]; [done|].
  apply not_elem_of_cons in Hnotin as [Hne Hnotin].
  rewrite filter_cons_True by done. f_equal. by apply IHl.
Qed.

Lemma dict_fromkeys_from keys d :
  fold_left (λ d k, if decide (k ∈ d) then d else d ++ [k]) keys d
  = d ++ filter (λ k, k ∉ d) (first_occurrences keys).
Proof.
  revert d. induction keys as [|x keys IH]; intros d; simpl.
  - by rewrite app_nil_r.
  - rewrite IH. case_decide as Hx.
    + f_equal. rewrite filter_cons_False by naive_solver.
      rewrite list_filter_filter. apply list_filter_iff. naive_solver.
    + rewrite <- app_assoc. f_equal. simpl. rewrite filter_cons_True by done.
      f_equal. rewrite list_filter_filter. apply list_filter_iff.
      intros y. rewrite elem_of_app, list_elem_of_singleton. naive_solver.
Qed.

Lemma dict_fromkeys_first keys : dict_fromkeys keys = first_occurrences keys.
Proof.
  unfold dict_fromkeys. rewrite dict_fromkeys_from. simpl.
  induction (first_occurrences keys) as [|x l IH]; [done|].
  rewrite filter_cons_True by apply not_elem_of_nil. by f_equal.
Qed.

Lemma found_loop `{Unicode} t cities acc :
  fold_left (λ found c, if str_in (lower c) t then found ++ [c] else found) cities acc
  = acc ++ filter (λ c, str_in (lower c) t = true) cities.
Proof.
  revert acc. induction cities as [|c cities IH]; intros acc; simpl.
  - by rewrite app_nil_r.
  - rewrite IH, filter_cons.
    destruct (str_in (lower c) t); case_decide; try done.
    by rewrite <- app_assoc.
Qed.

Lemma extract_cities_first `{Unicode} text cities :
  extract_cities text cities
  = first_occurrences (filter (λ c, str_in (lower c) (lower text) = true) cities).
Proof.
  unfold extract_cities. rewrite found_loop, dict_fromkeys_first. done.
Qed.

(** C7. The cities found are the configured names whose lower-case form
    occurs in the lower-cased text, in configuration order (a name configured
    twice stands at its first place) and each once, however often the text
    mentions it; with "João Pessoa" and "Campina Grande" configured and a
    text naming both, the first of them twice, the output is those two names
    in that order. *)
Theorem extract_cities_ordered_unique :
  (∀ (U : Unicode) text cities,
     extract_cities text cities
     = first_occurrences (filter (λ c, str_in (lower c) (lower text) = true) cities) ∧
     NoDup (extract_cities text cities) ∧
     (∀ c, c ∈ extract_cities text cities ↔ c ∈ cities ∧ occurs_in (lower c) (lower text)) ∧
     extract_cities text cities `sublist_of` cities ∧
     (NoDup cities →
      extract_cities text cities
      = filter (λ c, str_in (lower c) (lower text) = true) cities)) ∧
  @extract_cities latin1
     (u "Presos em João Pessoa e Campina Grande; JOÃO PESSOA reforça policiamento")
     [u "João Pessoa"; u "Campina Grande"]
  = [u "João Pessoa"; u "Campina Grande"].
Proof.
  split; [|vm_compute; reflexivity].
  intros U text cities. rewrite extract_cities_first.
  split; [done|]. split; [apply first_occurrences_NoDup|].
  split; [|split].
  - intros c. rewrite first_occurrences_elem_of, list_elem_of_filter, str_in_spec.
    naive_solver.
  - etrans; [apply first_occurrences_sublist|apply sublist_filter].
  - intros Hnd. apply first_occurrences_id. by apply NoDup_filter.
Qed.

Lemma extract_cities_ordered_unique_witness :
  @extract_cities latin1 (u "Chuva em Patos e em Sousa") [u "Sousa"; u "Cajazeiras"; u "Patos"]
  = [u "Sousa"; u "Patos"].
Proof.
  rewrite (proj2 (proj2 (proj2 (proj2
    (proj1 extract_cities_ordered_unique latin1 (u "Chuva em Patos e em Sousa")
       [u "Sousa"; u "Cajazeiras"; u "Patos"]))))).
  - vm_compute. reflexivity.
  - apply (bool_decide_unpack _). vm_compute. exact I.
Defined.

(** ** The names *)

Lemma drop_nth (words : list str) j :
  (j < length words)%nat → drop j words = nth j words [] :: drop (S j) words.
Proof.
  intros Hj. apply lookup_lt_is_Some_2 in Hj as [w Hw].
  rewrite (nth_lookup_Some _ _ _ _ Hw). by apply drop_S.
Qed.

(** The inner loop appends the title-cased words it walks over. *)
Lemma name_run_spec `{Unicode} (words name_parts : list str) (j : nat) :
  ∃ run, fst (name_run words name_parts j) = name_parts ++ run ∧
         Forall (λ w, istitle w = true) run ∧
         drop j words = run ++ drop (snd (name_run words name_parts j)) words.
Proof.
  funelim (name_run words name_parts j).
  - exists []. rewrite app_nil_r. done.
  - match goal with IH : ∃ _, _ |- _ => destruct IH as (run & Hfst & Htitle & Hdrop) end.
    exists (nth j words [] :: run). rewrite Hfst, <- app_assoc. split; [done|].
    split; [by constructor|]. rewrite drop_nth by done. simpl. by f_equal.
  - exists []. rewrite app_nil_r. done.
Qed.

Lemma names_loop_title_runs `{Unicode} (words : list str) (names : gset str) (i : nat) :
  (∀ name, name ∈ names → title_run words name) →
  ∀ name, name ∈ names_loop words names i → title_run words name.
Proof.
  funelim (names_loop words names i); intros Hnames name Hin; eauto.
  match goal with IH : _ |- _ => eapply IH; [|exact Hin] end.
  intros n [->%elem_of_singleton | Hn]%elem_of_union; [|by apply Hnames].
  destruct (name_run_spec words [nth i words []] (S i)) as (run & Hfst & Htitle & Hdrop).
  rewrite Hrun in Hfst, Hdrop. simpl in Hfst, Hdrop. subst name_parts.
  match goal with Hq : _ && _ = true |- _ => apply andb_true_iff in Hq as [Ht Hlen] end.
  exists (take i words), (nth i words []), run, (drop j words).
  split; [|split; [done|split; [|split]]].
  - rewrite <- (take_drop i words) at 1. f_equal.
    rewrite drop_nth by done. simpl. by f_equal.
  - match goal with Hl : (2 <=? _)%nat = true |- _ => by apply Nat.leb_le in Hl end.
  - by apply Nat.ltb_lt in Hlen.
  - by constructor.
Qed.




(** ** The loops of [main] *)

Section Loops.
Context `{Unicode} `{Capabilities}.

(** A property of the loop variables that every entry preserves holds when
    the loops end. *)
Lemma collect_invariant (P : Run → Prop) keywords cities existing tr0 :
  (∀ st e, P st → P (process_entry keywords cities st e)) →
  (∀ st url, P st →
     P {| trace := trace st ++ [FeedParse url]; rows := rows st; seen_keys := seen_keys st |}) →
  P {| trace := tr0; rows := []; seen_keys := existing_keys existing |} →
  P (collect keywords cities existing tr0).
Proof.
  intros Hentry Htrace. unfold collect.
  generalize {| trace := tr0; rows := []; seen_keys := existing_keys existing |}.
  induction keywords as [|kw kws IH] at 2; intros st Hst; simpl; [done|].
  apply IH. unfold process_keyword, fetch_rss_entries.
  generalize (take SEARCH_TOP (feedparser_parse (trace st) (build_google_news_rss kw))).
  intros entries.
  assert (P {| trace := trace st ++ [FeedParse (build_google_news_rss kw)];
               rows := rows st; seen_keys := seen_keys st |}) as Hst' by by apply Htrace.
  revert Hst'.
  generalize {| trace := trace st ++ [FeedParse (build_google_news_rss kw)];
                rows := rows st; seen_keys := seen_keys st |}.
  induction entries as [|e entries IHe]; intros st' Hst'; simpl; [done|].
  apply IHe. by apply Hentry.
Qed.

Lemma resolve_text_trace tr e :
  snd (resolve_text tr e) = tr ++ [HttpGet (dict_get e (u "link") [])].
Proof.
  unfold resolve_text, extract_text_from_link.
  destruct (fetch_page tr (dict_get e (u "link") [])); done.
Qed.

(** An entry whose key has been seen changes nothing: no request is sent and
    no row is built. *)
Lemma process_entry_seen keywords cities st e :
  entry_key e ∈ seen_keys st → process_entry keywords cities st e = st.
Proof.
  intros Hseen. unfold process_entry. fold (entry_key e). by rewrite decide_True.
Qed.

(** An entry either adds no row, or adds the row made from its resolved
    text; then the text passes the region filter, the key was not seen
    before and is seen from now on. *)
Lemma process_entry_rows keywords cities st e :
  let text := fst (resolve_text (trace st) e) in
  let tr := snd (resolve_text (trace st) e) in
  let st' := process_entry keywords cities st e in
  (rows st' = rows st ∧ seen_keys st' = seen_keys st) ∨
  (rows st' = rows st ++ [make_row keywords cities tr (dict_get e (u "title") [])
                            (dict_get e (u "link") []) (dict_get e (u "published") []) text] ∧
   mentions_paraiba (lower_of (dict_get e (u "title") []) text) = true ∧
   (entry_key e ∉ seen_keys st) ∧
   seen_keys st' = {[ entry_key e ]} ∪ seen_keys st).
Proof.
  intros text tr st'. subst text tr st'. unfold process_entry. fold (entry_key e).
  case_decide as Hseen; [by left|].
  destruct (resolve_text (trace st) e) as [text tr]. simpl.
  destruct (mentions_paraiba (lower_of (dict_get e (u "title") []) text)); simpl.
  - right. done.
  - left. done.
Qed.

(** What an entry with an unseen key does: one request for its page, and a
    row when its text passes the region filter. *)
Lemma process_entry_unseen keywords cities st e :
  entry_key e ∉ seen_keys st →
  process_entry keywords cities st e
  = let text := fst (resolve_text (trace st) e) in
    let tr := trace st ++ [HttpGet (dict_get e (u "link") [])] in
    if mentions_paraiba (lower_of (dict_get e (u "title") []) text)
    then {| trace := tr ++ [Sleep];
            rows := rows st ++ [make_row keywords cities tr (dict_get e (u "title") [])
                                  (dict_get e (u "link") []) (dict_get e (u "published") []) text];
            seen_keys := {[ entry_key e ]} ∪ seen_keys st |}
    else {| trace := tr; rows := rows st; seen_keys := seen_keys st |}.
Proof.
  intros Hnew. unfold process_entry. fold (entry_key e). rewrite decide_False by done.
  pose proof (resolve_text_trace (trace st) e) as Htr.
  destruct (resolve_text (trace st) e) as [text tr]. simpl in *. subst tr.
  by destruct (mentions_paraiba _).
Qed.

Lemma process_entry_discards keywords cities st e :
  mentions_paraiba (lower_of (dict_get e (u "title") []) (fst (resolve_text (trace st) e))) = false →
  rows (process_entry keywords cities st e) = rows st.
Proof.
  intros Hno. destruct (process_entry_rows keywords cities st e) as [[? _]|(_ & Hyes & _)]; [done|].
  congruence.
Qed.



Lemma existing_keys_from (existing : list Row) (seen : gset str) k :
  k ∈ fold_left (λ seen r, {[ row_key r ]} ∪ seen) existing seen
  ↔ k ∈ seen ∨ k ∈ (row_key <$> existing).
Proof.
  revert seen. induction existing as [|r rs IH]; intros seen; simpl.
  - rewrite elem_of_nil. naive_solver.
  - rewrite IH, elem_of_cons. set_solver.
Qed.

Lemma existing_keys_elem_of existing k :
  k ∈ existing_keys existing ↔ k ∈ (row_key <$> existing).
Proof. unfold existing_keys. rewrite existing_keys_from. set_solver. Qed.




Lemma mentions_paraiba_spec title text :
  mentions_paraiba (lower_of title text) = true ↔ region_ok title text.
Proof.
  unfold mentions_paraiba, region_ok, lower_of.
  by rewrite orb_true_iff, !str_in_spec.
Qed.

(** With case tables that work character by character, a text that passes
    the region filter contains "paraíba" or "paraiba" also when the title and
    the text are concatenated without the space. *)
Lemma region_ok_concat title text :
  (∀ a b, lower (a ++ b) = lower a ++ lower b) → lower (u " ") = u " " →
  region_ok title text →
  occurs_in (u "paraíba") (lower (title ++ text)) ∨
  occurs_in (u "paraiba") (lower (title ++ text)).
Proof.
  intros Hhom Hsp. unfold region_ok.
  rewrite !Hhom, Hsp. change (u " ") with [32]. simpl.
  intros [Hin | Hin]; [left | right];
    (apply occurs_in_sep in Hin as [?|?];
     [by apply occurs_in_app_l | by apply occurs_in_app_r
     | apply (bool_decide_unpack _); vm_compute; exact I]).
Qed.

Lemma collect_accepted keywords cities existing tr0 :
  Forall (accepted_row keywords cities) (rows (collect keywords cities existing tr0)).
Proof.
  apply (collect_invariant (λ st, Forall (accepted_row keywords cities) (rows st))).
  - intros st e Hst.
    destruct (process_entry_rows keywords cities st e) as [[-> _]|(-> & Hyes & _)]; [done|].
    apply Forall_app. split; [done|]. apply Forall_singleton.
    exists (trace st), e. split; [done|]. by apply mentions_paraiba_spec.
  - done.
  - constructor.
Qed.



(** What [main] does once the configuration is loaded. *)
Lemma main_commit cfg csv tr0 :
  let existing := load_existing_csv csv in
  let st := collect (dict_get cfg (u "keywords") []) (dict_get cfg (u "cities") []) existing tr0 in
  main (ConfigDocument cfg) csv tr0
  = match existing ++ rows st with
    | [] => {| status := Returned; events := trace st ++ [Print NoNewRecords]; csv_file := csv |}
    | _ :: _ =>
        {| status := Returned;
           events := trace st ++ [SaveCsv (existing ++ rows st);
                                  Print (Saved (length (existing ++ rows st)))];
           csv_file := Csv (existing ++ rows st) |}
    end.
Proof.
  intros existing st. unfold main. simpl. fold existing. fold st.
  destruct existing as [|r existing']; [|done].
  simpl. done.
Qed.

End Loops.

(** ** Deduplication *)




(** ** The region filter *)

(** C2. An entry adds a row only if the title, a space and the resolved
    text (the text of the page, or the feed's summary when that is empty),
    lower-cased, contain "paraíba" or "paraiba"; otherwise it adds nothing.
    With case tables that work character by character the same holds of the
    title and the text concatenated without the space. So every row a run
    collects, and every row of the written table that was not in the table
    before, was made from an entry whose text passes this filter. *)
Theorem region_filter `{Unicode} `{Capabilities} :
  (∀ keywords cities st e,
     let text := fst (resolve_text (trace st) e) in
     let st' := process_entry keywords cities st e in
     (rows st' = rows st ∨
      ∃ row, rows st' = rows st ++ [row] ∧
             title row = dict_get e (u "title") [] ∧
             region_ok (title row) text) ∧
     (¬ region_ok (dict_get e (u "title") []) text → rows st' = rows st)) ∧
  (∀ tr e,
     fst (resolve_text tr e)
     = let fetched := fst (extract_text_from_link tr (dict_get e (u "link") [])) in
       if is_empty fetched
       then str_or (dict_get e (u "summary") []) (dict_get e (u "description") [])
       else fetched) ∧
  (∀ title text,
     (∀ a b, lower (a ++ b) = lower a ++ lower b) → lower (u " ") = u " " →
     region_ok title text →
     occurs_in (u "paraíba") (lower (title ++ text)) ∨
     occurs_in (u "paraiba") (lower (title ++ text))) ∧
  (∀ keywords cities existing tr0,
     Forall (accepted_row keywords cities) (rows (collect keywords cities existing tr0))) ∧
  (∀ cfg csv tr0 r,
     r ∈ load_existing_csv (csv_file (main (ConfigDocument cfg) csv tr0)) →
     r ∈ load_existing_csv csv ∨
     accepted_row (dict_get cfg (u "keywords") []) (dict_get cfg (u "cities") []) r).
Proof.
  split; [|split; [|split; [|split]]].
  - intros keywords cities st e text st'. subst text st'. split.
    + destruct (process_entry_rows keywords cities st e) as [[? _]|(Hrows & Hyes & _)];
        [by left|right].
      eexists. split; [exact Hrows|]. split; [done|]. by apply mentions_paraiba_spec.
    + intros Hno. apply process_entry_discards.
      apply not_true_is_false. by rewrite mentions_paraiba_spec.
  - intros tr e. unfold resolve_text.
    destruct (extract_text_from_link tr (dict_get e (u "link") [])). done.
  - apply region_ok_concat.
  - apply collect_accepted.
  - intros cfg csv tr0 r. rewrite main_commit.
    pose proof (collect_accepted (dict_get cfg (u "keywords") [])
                  (dict_get cfg (u "cities") []) (load_existing_csv csv) tr0) as Hall.
    destruct (load_existing_csv csv ++ rows _) as [|r0 df] eqn:Hdf; simpl; [by left|].
    rewrite <- Hdf, elem_of_app. intros [?|Hr]; [by left|right].
    by eapply Forall_forall in Hall.
Qed.

Lemma region_filter_witness :
  ∃ r, load_existing_csv
         (csv_file (@main latin1 crime_world (ConfigDocument demo_config) NoCsv [])) = [r] ∧
       (r ∈ load_existing_csv NoCsv ∨
        @accepted_row latin1 crime_world (dict_get demo_config (u "keywords") [])
          (dict_get demo_config (u "cities") []) r).
Proof.
  eexists. split; [vm_compute; reflexivity|].
  apply (proj2 (proj2 (proj2 (proj2 (@region_filter latin1 crime_world))))
           demo_config NoCsv []).
  vm_compute. constructor.
Defined.

(** ** The write at the end of a run *)




(** ** The configuration *)

(** C8, as the code has it. Without a configuration file, or with one that
    is not a JSON document, the run aborts before any request and leaves the
    table alone. A document never aborts the run: a field [keywords] or
    [cities] that is missing is read as the empty list. *)
Theorem config_contract `{Unicode} `{Capabilities} :
  (∀ csv tr0,
     main NoConfigFile csv tr0
     = {| status := Raised FileNotFoundError; events := tr0; csv_file := csv |}) ∧
  (∀ csv tr0,
     main BadConfigFile csv tr0
     = {| status := Raised JSONDecodeError; events := tr0; csv_file := csv |}) ∧
  (∀ cfg csv tr0, status (main (ConfigDocument cfg) csv tr0) = Returned) ∧
  (∀ cfg csv tr0,
     main (ConfigDocument cfg) csv tr0
     = main (ConfigDocument
               (<[u "keywords" := dict_get cfg (u "keywords") []]>
                  (<[u "cities" := dict_get cfg (u "cities") []]> cfg))) csv tr0).
Proof.
  split; [done|]. split; [done|]. split.
  - intros cfg csv tr0. rewrite main_commit. by destruct (_ ++ _).
  - intros cfg csv tr0. unfold main. simpl. unfold dict_get.
    rewrite lookup_insert_eq, lookup_insert_ne, lookup_insert_eq by (vm_compute; discriminate).
    done.
Qed.

(** C8, as it is stated, fails: a document with neither field, and one with
    [cities] only, do not abort the run. *)
Lemma config_missing_fields_counterexample :
  @main latin1 offline (ConfigDocument ∅) NoCsv []
  = {| status := Returned; events := [Print NoNewRecords]; csv_file := NoCsv |} ∧
  @main latin1 offline (ConfigDocument {[ u "cities" := [u "Patos"] ]}) NoCsv []
  = {| status := Returned; events := [Print NoNewRecords]; csv_file := NoCsv |}.
Proof. split; vm_compute; reflexivity. Qed.

(** ** More facts about strings *)

Lemma lstrip_suffix s : lstrip s `suffix_of` s.
Proof.
  induction s as [|c s IH]; simpl; [done|].
  destruct (isspace c); [by apply suffix_cons_r|done].
Qed.

Lemma lstrip_head s c t : lstrip s = c :: t → isspace c = false.
Proof.
  induction s as [|c' s IH]; simpl; [done|].
  destruct (isspace c') eqn:Hc; [done|]. by intros [= <- _].
Qed.

Lemma lstrip_id s c : isspace c = false → lstrip (c :: s) = c :: s.
Proof. intros Hc. simpl. by rewrite Hc. Qed.

Lemma lstrip_lstrip s : lstrip (lstrip s) = lstrip s.
Proof.
  destruct (lstrip s) as [|c t] eqn:Hs; [done|].
  apply lstrip_id. by eapply lstrip_head.
Qed.

Lemma lstrip_snoc s c : isspace c = false → lstrip (s ++ [c]) = lstrip s ++ [c].
Proof.
  intros Hc. induction s as [|c' s IH]; simpl; [by rewrite Hc|].
  by destruct (isspace c').
Qed.

Lemma rstrip_rstrip s : rstrip (rstrip s) = rstrip s.
Proof. unfold rstrip. by rewrite rev_involutive, lstrip_lstrip. Qed.

Lemma rstrip_cons s c : isspace c = false → rstrip (c :: s) = c :: rstrip s.
Proof.
  intros Hc. unfold rstrip. simpl. rewrite lstrip_snoc by done.
  by rewrite rev_app_distr.
Qed.

Lemma lstrip_rstrip_lstrip s : lstrip (rstrip (lstrip s)) = rstrip (lstrip s).
Proof.
  destruct (lstrip s) as [|c t] eqn:Hs; [done|].
  pose proof (lstrip_head _ _ _ Hs) as Hc.
  rewrite rstrip_cons by done. by apply lstrip_id.
Qed.

(** Stripping a stripped string changes nothing. *)
Lemma strip_strip s : strip (strip s) = strip s.
Proof. unfold strip. by rewrite lstrip_rstrip_lstrip, rstrip_rstrip. Qed.

Lemma lstrip_subseteq s : lstrip s ⊆ s.
Proof.
  intros c Hc. destruct (lstrip_suffix s) as [k Hk]. rewrite Hk.
  apply elem_of_app. by right.
Qed.

Lemma elem_of_rev_iff (s : str) c : c ∈ rev s ↔ c ∈ s.
Proof. by rewrite !list_elem_of_In, <- in_rev. Qed.

Lemma strip_subseteq s : strip s ⊆ s.
Proof.
  unfold strip, rstrip. intros c Hc.
  apply lstrip_subseteq, elem_of_rev_iff, lstrip_subseteq. by apply elem_of_rev_iff.
Qed.

Lemma lstrip_length s : (length (lstrip s) ≤ length s)%nat.
Proof. apply suffix_length, lstrip_suffix. Qed.

Lemma strip_length s : (length (strip s) ≤ length s)%nat.
Proof.
  unfold strip, rstrip. rewrite length_rev.
  etrans; [apply lstrip_length|]. rewrite length_rev. apply lstrip_length.
Qed.

(** A stripped string neither starts nor ends with white space. *)
Lemma strip_ends s :
  (∀ c t, strip s = c :: t → isspace c = false) ∧
  (∀ c t, strip s = t ++ [c] → isspace c = false).
Proof.
  split; intros c t Hs.
  - pose proof (lstrip_rstrip_lstrip s) as Hl. fold (strip s) in Hl.
    rewrite Hs in Hl. by eapply lstrip_head.
  - unfold strip, rstrip in Hs. apply (f_equal (@rev _)) in Hs.
    rewrite rev_involutive, rev_app_distr in Hs. simpl in Hs.
    by eapply lstrip_head.
Qed.

Lemma split_sep_from_pieces sep cur s :
  sep ∉ cur → Forall (λ p, sep ∉ p) (split_sep_from sep cur s).
Proof.
  revert cur. induction s as [|c s IH]; intros cur Hcur; simpl.
  - by constructor.
  - destruct (N.eqb_spec c sep) as [->|Hne].
    + constructor; [done|]. apply IH. apply not_elem_of_nil.
    + apply IH. rewrite elem_of_app, list_elem_of_singleton. naive_solver.
Qed.

Lemma split_sep_from_cons sep cur s : ∃ p ps, split_sep_from sep cur s = p :: ps.
Proof.
  revert cur. induction s as [|c s IH]; intros cur; simpl; [eauto|].
  destruct (c =? sep); eauto.
Qed.

(** Joining the pieces with the separator gives the string back. *)
Lemma split_sep_from_join sep cur s :
  join [sep] (split_sep_from sep cur s) = cur ++ s.
Proof.
  revert cur. induction s as [|c s IH]; intros cur; simpl.
  - by rewrite app_nil_r.
  - destruct (N.eqb_spec c sep) as [->|Hne].
    + destruct (split_sep_from_cons sep [] s) as (p & ps & Hs). rewrite Hs.
      change (join [sep] (cur :: p :: ps)) with (cur ++ [sep] ++ join [sep] (p :: ps)).
      by rewrite <- Hs, IH.
    + by rewrite IH, <- app_assoc.
Qed.

Lemma join_elem_of sep parts c :
  c ∈ join sep parts → c ∈ sep ∨ ∃ p, p ∈ parts ∧ c ∈ p.
Proof.
  induction parts as [|p parts IH]; [by intros ?%elem_of_nil|].
  destruct parts as [|p' parts].
  - simpl. intros Hc. right. exists p. split; [constructor|done].
  - change (join sep (p :: p' :: parts)) with (p ++ sep ++ join sep (p' :: parts)).
    rewrite !elem_of_app. intros [Hc|[Hc|Hc]].
    + right. exists p. split; [constructor|done].
    + by left.
    + destruct (IH Hc) as [?|(q & Hq & Hcq)]; [by left|].
      right. exists q. split; [by constructor|done].
Qed.

Lemma lstrip_blank s : Forall (λ c, isspace c = true) s → lstrip s = [].
Proof. induction 1 as [|c s Hc _ IH]; simpl; [done|]. by rewrite Hc. Qed.

Lemma strip_blank s : Forall (λ c, isspace c = true) s → strip s = [].
Proof. intros Hs. unfold strip. by rewrite lstrip_blank. Qed.

Lemma join_length_sep (a b : N) (parts : list str) :
  length (join [a] parts) = length (join [b] parts).
Proof.
  induction parts as [|p parts IH]; [done|].
  destruct parts as [|p' parts]; [done|].
  change (join [a] (p :: p' :: parts)) with (p ++ [a] ++ join [a] (p' :: parts)).
  change (join [b] (p :: p' :: parts)) with (p ++ [b] ++ join [b] (p' :: parts)).
  rewrite !length_app, IH. done.
Qed.

Lemma join_take_length (sep : N) (parts : list str) (k : nat) :
  (length (join [sep] (take k parts)) ≤ length (join [sep] parts))%nat.
Proof.
  revert k. induction parts as [|p parts IH]; intros k; [by destruct k|].
  destruct k as [|k]; [simpl; lia|].
  destruct parts as [|p' parts]; [by destruct k|].
  destruct k as [|k].
  - change (join [sep] (p :: p' :: parts)) with (p ++ [sep] ++ join [sep] (p' :: parts)).
    simpl. rewrite length_app. lia.
  - change (take (S (S k)) (p :: p' :: parts)) with (p :: p' :: take k parts).
    change (join [sep] (p :: p' :: take k parts))
      with (p ++ [sep] ++ join [sep] (take (S k) (p' :: parts))).
    change (join [sep] (p :: p' :: parts)) with (p ++ [sep] ++ join [sep] (p' :: parts)).
    rewrite !length_app. specialize (IH (S k)). lia.
Qed.

(** ** The text of a page *)

(** X1. Whatever the page, [extract_text_from_link] logs exactly one request,
    for the link it was given, and returns a stripped string: it neither
    starts nor ends with white space, and stripping it again changes
    nothing; when the request or the parse fails it returns the empty
    string. *)
Theorem extract_text_from_link_stripped `{Capabilities} (tr : list event) (url : str) :
  snd (extract_text_from_link tr url) = tr ++ [HttpGet url] ∧
  strip (fst (extract_text_from_link tr url)) = fst (extract_text_from_link tr url) ∧
  (∀ c t, fst (extract_text_from_link tr url) = c :: t → isspace c = false) ∧
  (∀ c t, fst (extract_text_from_link tr url) = t ++ [c] → isspace c = false) ∧
  (fetch_page tr url = None → fst (extract_text_from_link tr url) = []).
Proof.
  unfold extract_text_from_link. destruct (fetch_page tr url) as [page|]; simpl.
  - split; [done|]. split; [apply strip_strip|].
    split; [apply strip_ends|]. split; [apply strip_ends|done].
  - split; [done|]. split; [done|]. split; [done|]. split; [by intros c [|??]|done].
Qed.

(** X2. When the page cannot be fetched, or has no description and only
    white space in its paragraphs, the text an entry is judged by is the
    feed's own summary, or its description when the summary is missing or
    empty. *)
Theorem resolve_text_falls_back `{Capabilities} (tr : list event) (e : gmap str str) :
  let link := dict_get e (u "link") [] in
  (fetch_page tr link = None ∨
   ∃ page, fetch_page tr link = Some page ∧ meta_content page = None ∧
           Forall (λ c, isspace c = true) (join [10] (paragraphs page))) →
  fst (resolve_text tr e)
  = match e !! u "summary" with
    | Some (c :: s) => c :: s
    | _ => dict_get e (u "description") []
    end.
Proof.
  intros link Hpage. subst link.
  assert (fst (extract_text_from_link tr (dict_get e (u "link") [])) = []) as Hempty.
  { unfold extract_text_from_link.
    destruct Hpage as [-> | (page & -> & -> & Hblank)]; [done|]. simpl.
    destruct (_ <? _)%nat; by apply strip_blank. }
  unfold resolve_text.
  destruct (extract_text_from_link tr (dict_get e (u "link") [])) as [text tr'].
  simpl in Hempty. subst text. simpl. unfold str_or, dict_get.
  by destruct (e !! u "summary") as [[|??]|].
Qed.

Lemma resolve_text_falls_back_witness :
  fst (@resolve_text offline []
         (<[u "summary" := u "Operação na Paraíba"]> crime))
  = u "Operação na Paraíba".
Proof.
  rewrite (@resolve_text_falls_back offline []
             (<[u "summary" := u "Operação na Paraíba"]> crime)).
  - vm_compute. reflexivity.
  - left. reflexivity.
Defined.

(** ** The fall-back summary *)

(** X3. On a text of at least 30 tokens on which LexRank fails, the summary
    is made of the first [sentences_count] pieces between full stops, joined
    by spaces and stripped: it contains no full stop, neither starts nor ends
    with white space, and is not longer than the text. *)
Theorem summarize_fallback_shape `{Capabilities} (text : str) (sentences_count : nat) :
  (30 ≤ length (split text))%nat →
  lex_rank text sentences_count = None →
  let resumo := simple_summarize text sentences_count in
  resumo = strip (join (u " ") (take sentences_count (split_sep 46 text))) ∧
  (46 ∉ resumo) ∧
  strip resumo = resumo ∧
  (length resumo ≤ length text)%nat.
Proof.
  intros Hlong Hfail resumo.
  assert (resumo = strip (join (u " ") (take sentences_count (split_sep 46 text)))) as ->.
  { subst resumo. unfold simple_summarize. rewrite Hfail.
    destruct text as [|c text]; [simpl in Hlong; lia|]. simpl.
    apply Nat.ltb_ge in Hlong. by rewrite Hlong. }
  split; [done|]. split; [|split; [apply strip_strip|]].
  - intros Hin. apply strip_subseteq, join_elem_of in Hin as [Hin|(p & Hp & Hin)].
    + vm_compute in Hin. by apply list_elem_of_singleton in Hin.
    + apply subseteq_take in Hp.
      pose proof (split_sep_from_pieces 46 [] text (not_elem_of_nil _)) as Hall.
      by eapply Forall_forall in Hall.
  - etrans; [apply strip_length|]. change (u " ") with [32].
    rewrite (join_length_sep 32 46). etrans; [apply join_take_length|].
    unfold split_sep. by rewrite split_sep_from_join.
Qed.

Lemma summarize_fallback_shape_witness :
  @simple_summarize offline long_report 3
  = u "A Polícia Civil prendeu dois suspeitos de tráfico em Campina Grande  "
    ++ u "Segundo o delegado, a operação começou na madrugada de terça-feira  "
    ++ u "Os presos foram levados para a Central de Polícia".
Proof.
  rewrite (proj1 (@summarize_fallback_shape offline long_report 3
                    ltac:(vm_compute; lia) eq_refl)).
  vm_compute. reflexivity.
Defined.

(** ** The rows of the table *)

Lemma classify_label `{Unicode} text keywords :
  classify_by_keywords text keywords ∈ labels.
Proof.
  unfold classify_by_keywords, labels.
  repeat (match goal with |- context [any_in ?t ?x] => destruct (any_in t x) end);
    rewrite !elem_of_cons; auto 10.
Qed.

Lemma snippet_shape (text : str) :
  let snippet := strip (replace_char 10 32 (take 800 text)) in
  (length snippet ≤ 800)%nat ∧ (10 ∉ snippet) ∧ strip snippet = snippet.
Proof.
  intros snippet. subst snippet. split; [|split; [|apply strip_strip]].
  - etrans; [apply strip_length|]. unfold replace_char.
    rewrite length_map, length_take. lia.
  - intros Hin. apply strip_subseteq in Hin. unfold replace_char in Hin.
    apply list_elem_of_In, in_map_iff in Hin as (c & Hc & _).
    destruct (N.eqb_spec c 10); [done|]. by subst c.
Qed.

(** X4. Every row a run collects has a snippet of at most 800 characters
    that contains no line feed and neither starts nor ends with white space,
    one of the five labels as its category, and a relevance that is at most
    the number of configured keywords. *)
Theorem collected_rows_shape `{Unicode} `{Capabilities}
    (keywords cities : list str) (existing : list Row) (tr0 : list event) :
  Forall (λ r, (length (raw_text_snippet r) ≤ 800)%nat ∧
               (10 ∉ raw_text_snippet r) ∧
               strip (raw_text_snippet r) = raw_text_snippet r ∧
               category r ∈ labels ∧
               (relevance r ≤ length keywords)%nat)
         (rows (collect keywords cities existing tr0)).
Proof.
  eapply Forall_impl; [apply collect_accepted|].
  intros r (tr & e & -> & _). simpl.
  pose proof (snippet_shape (fst (resolve_text tr e))) as (? & ? & ?).
  repeat split; try done; [apply classify_label|apply relevance_bound].
Qed.

(** ** What a run does and how much *)

Lemma count_app kind evs1 evs2 :
  count kind (evs1 ++ evs2) = (count kind evs1 + count kind evs2)%nat.
Proof. induction evs1 as [|ev evs1 IH]; simpl; [done|]. rewrite IH. lia. Qed.

Section Work.
Context `{Unicode} `{Capabilities}.

Ltac close_advances :=
  simpl; rewrite ?app_nil_r, <- ?app_assoc; repeat split; try done; try lia.

Lemma advances_trans f1 g1 f2 g2 st1 st2 st3 :
  advances f1 g1 st1 st2 → advances f2 g2 st2 st3 →
  advances (f1 + f2) (g1 + g2) st1 st3.
Proof.
  intros (evs1 & new1 & Ht1 & Hr1 & ? & ? & ? & ? & ? & ?)
         (evs2 & new2 & Ht2 & Hr2 & ? & ? & ? & ? & ? & ?).
  exists (evs1 ++ evs2), (new1 ++ new2).
  rewrite Ht2, Ht1, Hr2, Hr1, <- !app_assoc, !count_app, length_app.
  repeat split; try done; lia.
Qed.

Lemma process_entry_advances keywords cities st e :
  advances 0 1 st (process_entry keywords cities st e).
Proof.
  destruct (decide (entry_key e ∈ seen_keys st)) as [Hseen|Hnew].
  - rewrite process_entry_seen by done. exists [], []. close_advances.
  - rewrite process_entry_unseen by done. cbv zeta.
    destruct (mentions_paraiba _).
    + eexists [_; _], [_]. close_advances.
    + eexists [_], []. close_advances.
Qed.

Lemma entries_advance keywords cities entries st :
  advances 0 (length entries) st (fold_left (process_entry keywords cities) entries st).
Proof.
  revert st. induction entries as [|e entries IH]; intros st; simpl.
  - exists [], []. close_advances.
  - apply (advances_trans 0 1 0 (length entries) _ _ _
             (process_entry_advances keywords cities st e) (IH _)).
Qed.

Lemma process_keyword_advances keywords cities st kw :
  advances 1 SEARCH_TOP st (process_keyword keywords cities st kw).
Proof.
  unfold process_keyword, fetch_rss_entries.
  set (entries := take SEARCH_TOP _).
  set (st1 := {| trace := trace st ++ [FeedParse (build_google_news_rss kw)];
                 rows := rows st; seen_keys := seen_keys st |}).
  assert (advances 1 0 st st1) as H1.
  { eexists [_], []. close_advances. }
  destruct (advances_trans _ _ _ _ _ _ _ H1 (entries_advance keywords cities entries st1))
    as (evs & new & ? & ? & ? & Hgets & ? & ? & ? & ?).
  exists evs, new. repeat split; try done.
  etrans; [exact Hgets|]. subst entries. rewrite length_take. apply Nat.le_min_l.
Qed.

Lemma keywords_advance keywords cities kws st :
  advances (length kws) (SEARCH_TOP * length kws) st
    (fold_left (process_keyword keywords cities) kws st).
Proof.
  revert st. induction kws as [|kw kws IH]; intros st; cbn [fold_left length].
  - exists [], []. close_advances.
  - destruct (advances_trans _ _ _ _ _ _ _
                (process_keyword_advances keywords cities st kw) (IH _))
      as (evs & new & ? & ? & ? & Hgets & ? & ? & ? & ?).
    exists evs, new. unfold SEARCH_TOP in *. repeat split; try done; lia.
Qed.

End Work.

(** X5. A run that loads its configuration extends the history by one feed
    query per keyword, at most 10 page requests per keyword, one pause per
    new row (and at least one page request per new row), at most one write
    and exactly one printed message. *)
Theorem run_work_bounds `{Unicode} `{Capabilities}
    (cfg : gmap str (list str)) (csv : CsvFile) (tr0 : list event) :
  let keywords := dict_get cfg (u "keywords") [] in
  let new_rows :=
    rows (collect keywords (dict_get cfg (u "cities") []) (load_existing_csv csv) tr0) in
  ∃ evs,
    events (main (ConfigDocument cfg) csv tr0) = tr0 ++ evs ∧
    count is_feed_parse evs = length keywords ∧
    (count is_http_get evs ≤ 10 * length keywords)%nat ∧
    count is_sleep evs = length new_rows ∧
    (length new_rows ≤ count is_http_get evs)%nat ∧
    (count is_save_csv evs ≤ 1)%nat ∧
    count is_print evs = 1%nat.
Proof.
  intros keywords new_rows. subst new_rows. rewrite main_commit.
  unfold collect.
  destruct (keywords_advance keywords (dict_get cfg (u "cities") []) keywords
              {| trace := tr0; rows := []; seen_keys := existing_keys (load_existing_csv csv) |})
    as (evs & new & Htr & Hrows & ? & ? & ? & ? & ? & ?).
  simpl in Htr, Hrows. fold keywords. rewrite Htr, Hrows. unfold SEARCH_TOP in *.
  destruct (load_existing_csv csv ++ new); simpl.
  - exists (evs ++ [Print NoNewRecords]).
    rewrite <- app_assoc, !count_app. simpl. repeat split; try done; lia.
  - eexists (evs ++ [SaveCsv _; Print _]).
    rewrite <- app_assoc, !count_app. simpl. repeat split; try done; lia.
Qed.

(** ** The table and the seen keys *)

Section Table.
Context `{Unicode} `{Capabilities}.

Lemma main_table cfg csv tr0 :
  load_existing_csv (csv_file (main (ConfigDocument cfg) csv tr0))
  = load_existing_csv csv
    ++ rows (collect (dict_get cfg (u "keywords") []) (dict_get cfg (u "cities") [])
               (load_existing_csv csv) tr0).
Proof.
  rewrite main_commit.
  destruct (load_existing_csv csv ++ rows _) as [|r df] eqn:Hdf; simpl; [|done].
  by apply app_eq_nil in Hdf as [Hold _].
Qed.

(** Like [collect_invariant], for a property that only the entries a feed
    can return need to preserve. *)
Lemma collect_invariant_fed (P : Run → Prop) keywords cities existing tr0 :
  (∀ st e tr url, e ∈ feedparser_parse tr url → P st →
                  P (process_entry keywords cities st e)) →
  (∀ st url, P st →
     P {| trace := trace st ++ [FeedParse url]; rows := rows st; seen_keys := seen_keys st |}) →
  P {| trace := tr0; rows := []; seen_keys := existing_keys existing |} →
  P (collect keywords cities existing tr0).
Proof.
  intros Hentry Htrace. unfold collect.
  generalize {| trace := tr0; rows := []; seen_keys := existing_keys existing |}.
  induction keywords as [|kw kws IH] at 2; intros st Hst; simpl; [done|].
  apply IH. unfold process_keyword, fetch_rss_entries.
  pose proof (subseteq_take SEARCH_TOP
                (feedparser_parse (trace st) (build_google_news_rss kw))) as Hfed.
  revert Hfed.
  generalize (take SEARCH_TOP (feedparser_parse (trace st) (build_google_news_rss kw))).
  intros entries Hfed.
  assert (P {| trace := trace st ++ [FeedParse (build_google_news_rss kw)];
               rows := rows st; seen_keys := seen_keys st |}) as Hst' by by apply Htrace.
  revert Hst'.
  generalize {| trace := trace st ++ [FeedParse (build_google_news_rss kw)];
                rows := rows st; seen_keys := seen_keys st |}.
  induction entries as [|e entries IHe]; intros st' Hst'; simpl; [done|].
  apply IHe; [set_solver|]. eapply Hentry; [|done]. apply Hfed. by left.
Qed.

Lemma existing_keys_set existing :
  existing_keys existing = list_to_set (row_key <$> existing).
Proof.
  apply set_eq. intros k. by rewrite existing_keys_elem_of, elem_of_list_to_set.
Qed.

End Table.

(** X7. When every entry the feeds return has the key of a row of the table,
    the run requests no page, pauses never and leaves the rows of the table
    as they are. *)
Theorem nothing_new_no_requests `{Unicode} `{Capabilities}
    (cfg : gmap str (list str)) (csv : CsvFile) (tr0 : list event) :
  (∀ tr url e, e ∈ feedparser_parse tr url →
               entry_key e ∈ (row_key <$> load_existing_csv csv)) →
  load_existing_csv (csv_file (main (ConfigDocument cfg) csv tr0)) = load_existing_csv csv ∧
  count is_http_get (events (main (ConfigDocument cfg) csv tr0)) = count is_http_get tr0 ∧
  count is_sleep (events (main (ConfigDocument cfg) csv tr0)) = count is_sleep tr0.
Proof.
  intros Hold.
  set (keywords := dict_get cfg (u "keywords") []).
  set (cities := dict_get cfg (u "cities") []).
  assert (let st := collect keywords cities (load_existing_csv csv) tr0 in
          rows st = [] ∧ seen_keys st = existing_keys (load_existing_csv csv) ∧
          count is_http_get (trace st) = count is_http_get tr0 ∧
          count is_sleep (trace st) = count is_sleep tr0) as (Hrows & _ & Hgets & Hsleeps).
  { apply (collect_invariant_fed
             (λ st, rows st = [] ∧ seen_keys st = existing_keys (load_existing_csv csv) ∧
                    count is_http_get (trace st) = count is_http_get tr0 ∧
                    count is_sleep (trace st) = count is_sleep tr0)).
    - intros st e tr url Hfed Hst. rewrite process_entry_seen; [done|].
      destruct Hst as (_ & -> & _). apply existing_keys_elem_of. by eapply Hold.
    - intros st url (? & ? & Hg & Hs). simpl. rewrite !count_app, Hg, Hs. simpl.
      repeat split; try done; lia.
    - done. }
  rewrite main_table. fold keywords cities. rewrite Hrows, app_nil_r. split; [done|].
  rewrite main_commit. fold keywords cities. rewrite Hrows, app_nil_r.
  destruct (load_existing_csv csv); simpl; rewrite !count_app, Hgets, Hsleeps; simpl;
    split; lia.
Qed.

Lemma nothing_new_no_requests_witness :
  load_existing_csv
    (csv_file (@main latin1 crime_world (ConfigDocument demo_config) crime_table []))
  = load_existing_csv crime_table ∧
  count is_http_get
    (events (@main latin1 crime_world (ConfigDocument demo_config) crime_table [])) = 0%nat ∧
  count is_sleep
    (events (@main latin1 crime_world (ConfigDocument demo_config) crime_table [])) = 0%nat.
Proof.
  apply (@nothing_new_no_requests latin1 crime_world demo_config crime_table []).
  intros tr url e He. simpl in He.
  apply elem_of_cons in He as [-> | He];
    [|apply elem_of_cons in He as [-> | He]; [|by apply elem_of_nil in He]];
    vm_compute; constructor.
Defined.

(** X8. When the loops end, the seen keys are exactly the keys of the rows
    read and of the rows collected: an entry that was fetched and rejected
    leaves no key behind. *)
Theorem seen_keys_exact `{Unicode} `{Capabilities}
    (keywords cities : list str) (existing : list Row) (tr0 : list event) :
  seen_keys (collect keywords cities existing tr0)
  = list_to_set (row_key <$> (existing ++ rows (collect keywords cities existing tr0))).
Proof.
  apply (collect_invariant
           (λ st, seen_keys st = list_to_set (row_key <$> (existing ++ rows st)))).
  - intros st e Hst.
    destruct (process_entry_rows keywords cities st e) as [[-> ->]|(-> & _ & _ & ->)]; [done|].
    apply set_eq. intros k.
    rewrite (app_assoc existing), (fmap_app row_key (existing ++ rows st)).
    change (row_key <$> [make_row _ _ _ _ _ _ _]) with [entry_key e].
    rewrite elem_of_union, Hst, !elem_of_list_to_set, elem_of_app,
      elem_of_singleton, list_elem_of_singleton.
    tauto.
  - done.
  - simpl. rewrite app_nil_r. apply existing_keys_set.
Qed.

(** X9. The key does not tell a title from a date: a title [a_b] with date
    [c] and a title [a] with date [b_c] have the same key, so once the first
    has been seen an entry with the second is skipped like a duplicate. *)
Theorem key_collision_skipped `{Unicode} `{Capabilities}
    (keywords cities : list str) (st : Run) (e1 e2 : gmap str str) (a b c : str) :
  dict_get e1 (u "title") [] = a ++ u "_" ++ b →
  dict_get e1 (u "published") [] = c →
  dict_get e2 (u "title") [] = a →
  dict_get e2 (u "published") [] = b ++ u "_" ++ c →
  entry_key e1 ∈ seen_keys st →
  entry_key e1 = entry_key e2 ∧ process_entry keywords cities st e2 = st.
Proof.
  intros Ht1 Hp1 Ht2 Hp2 Hseen.
  assert (entry_key e1 = entry_key e2) as Heq.
  { unfold entry_key, make_key. rewrite Ht1, Hp1, Ht2, Hp2. by rewrite <- !app_assoc. }
  split; [done|]. apply process_entry_seen. by rewrite <- Heq.
Qed.

Lemma key_collision_skipped_witness :
  let e1 := feed_entry (u "Caso Silva_Parte 2") (u "https://example.org/1") (u "2024-05-01") in
  let e2 := feed_entry (u "Caso Silva") (u "https://example.org/2") (u "Parte 2_2024-05-01") in
  let st := {| trace := []; rows := []; seen_keys := {[ entry_key e1 ]} |} in
  entry_key e1 = entry_key e2 ∧
  @process_entry latin1 offline [] [] st e2 = st.
Proof.
  apply (@key_collision_skipped latin1 offline [] [] _ _ _
           (u "Caso Silva") (u "Parte 2") (u "2024-05-01")).
  - vm_compute. reflexivity.
  - vm_compute. reflexivity.
  - vm_compute. reflexivity.
  - vm_compute. reflexivity.
  - simpl. apply elem_of_singleton. reflexivity.
Defined.


(** ** When a name is found *)

Lemma names_loop_mono `{Unicode} (words : list str) (names : gset str) (i : nat) :
  names ⊆ names_loop words names i.
Proof.
  funelim (names_loop words names i); try done.
  match goal with IH : _ ⊆ _ |- _ => etrans; [|exact IH] end. set_solver.
Qed.

Lemma name_run_two `{Unicode} (words : list str) (w : str) (p : nat) :
  (S p < length words)%nat → istitle (nth (S p) words []) = true →
  (2 ≤ length (fst (name_run words [w] (S p))))%nat.
Proof.
  intros Hlen Htitle. simp name_run.
  destruct (decide (S p < length words)%nat) as [?|?]; [|lia]. simpl.
  rewrite Htitle. simpl.
  destruct (name_run_spec words [w; nth (S p) words []] (S (S p))) as (run & -> & _).
  rewrite length_app. simpl. lia.
Qed.

(** From index [i] on, the loop finds a name when a word at or after [i]
    passes the test of a first word and the next word is title-cased. *)
Lemma names_loop_finds `{Unicode} (words : list str) (names : gset str) (i : nat) :
  ∀ p, (i ≤ p)%nat → (S p < length words)%nat →
       istitle (nth p words []) && (2 <? length (nth p words []))%nat = true →
       istitle (nth (S p) words []) = true →
       ∃ name, name ∈ names_loop words names i.
Proof.
  funelim (names_loop words names i); intros p Hip Hlen Hstart Hnext.
  - lia.
  - destruct (decide (i = p)) as [->|Hne].
    + match goal with Hq : _ && _ = false |- _ => rewrite Hq in Hstart end. done.
    + match goal with IH : ∀ p, _ |- _ => apply (IH p); [lia|done..] end.
  - exists (join (u " ") name_parts). apply names_loop_mono. set_solver.
  - destruct (decide (i = p)) as [->|Hne].
    + pose proof (name_run_two words (nth p words []) p Hlen Hnext) as Htwo.
      rewrite Hrun in Htwo. simpl in Htwo.
      match goal with Hl : (2 <=? _)%nat = false |- _ => apply Nat.leb_gt in Hl end. lia.
    + match goal with IH : ∀ p, _ |- _ => apply (IH p); [lia|done..] end.
Qed.

(** X11. The extractor returns at least one name exactly when some word of
    the text is title-cased and longer than two characters and the word after
    it is title-cased. *)
Theorem names_found_iff `{Unicode} (text : str) :
  extract_names_heuristic text ≠ [] ↔
  ∃ p, (S p < length (split text))%nat ∧
       qualifies (nth p (split text) []) = true ∧
       istitle (nth (S p) (split text) []) = true.
Proof.
  unfold extract_names_heuristic, qualifies. split.
  - intros Hne.
    destruct (elements (names_loop (split text) ∅ 0)) as [|name l] eqn:Hel; [done|].
    assert (name ∈ names_loop (split text) ∅ 0) as Hin.
    { apply elem_of_elements. rewrite Hel. by left. }
    apply names_loop_title_runs in Hin; [|set_solver].
    destruct Hin as (before & w & rest & after & Hwords & _ & Hlen & Hw & Htitle).
    destruct rest as [|w2 rest]; [simpl in Hlen; lia|].
    exists (length before). rewrite Hwords.
    inversion Htitle as [|? ? Ht Htitle']; subst.
    inversion Htitle' as [|? ? Ht2 _]; subst.
    split; [rewrite !length_app; simpl; lia|]. split.
    + simpl. rewrite nth_middle, Ht. simpl. by apply Nat.ltb_lt.
    + change (before ++ (w :: w2 :: rest) ++ after)
        with (before ++ [w] ++ w2 :: rest ++ after).
      rewrite app_assoc.
      replace (S (length before)) with (length (before ++ [w]))
        by (rewrite length_app; simpl; lia).
      by rewrite nth_middle.
  - intros (p & Hlen & Hstart & Hnext) Hel.
    destruct (names_loop_finds (split text) ∅ 0 p (Nat.le_0_l p) Hlen Hstart Hnext)
      as (name & Hin).
    apply elem_of_elements in Hin. rewrite Hel in Hin. by apply elem_of_nil in Hin.
Qed.

(** ** Reading a date back *)

Lemma digit_value_digit (n : Z) : digit_value (digit n) = (n mod 10)%Z.
Proof.
  unfold digit_value, digit.
  pose proof (Z.mod_pos_bound n 10 ltac:(lia)). rewrite Z2N.id by lia. lia.
Qed.

Lemma pad2_value (n : Z) :
  (0 ≤ n ≤ 99)%Z → (digit_value (digit (n / 10)) * 10 + digit_value (digit n))%Z = n.
Proof.
  intros Hn. rewrite !digit_value_digit.
  rewrite (Z.mod_small (n / 10) 10) by (split; [apply Z.div_pos; lia|apply Z.div_lt_upper_bound; lia]).
  pose proof (Z.div_mod n 10 ltac:(lia)). lia.
Qed.

Lemma pad4_value (n : Z) :
  (0 ≤ n ≤ 9999)%Z →
  ((digit_value (digit (n / 1000)) * 10 + digit_value (digit (n / 100))) * 100
   + (digit_value (digit (n / 10)) * 10 + digit_value (digit n)))%Z = n.
Proof.
  intros Hn. rewrite !digit_value_digit.
  Z.to_euclidean_division_equations. lia.
Qed.

Lemma nth_take_lt (l : list Z) (i n : nat) :
  (i < n)%nat → nth i (take n l) 0%Z = nth i l 0%Z.
Proof.
  revert i n. induction l as [|x l IH]; intros i n Hi.
  - by rewrite take_nil.
  - destruct n as [|n]; [lia|]. destruct i as [|i]; [done|]. simpl. apply IH. lia.
Qed.

(** X12. For a tuple whose first six elements [datetime] accepts,
    [normalize_date] returns the 19 characters [YYYY-MM-DDTHH:MM:SS] from
    which year, month, day, hour, minute and second read back as they were
    given, a time field that is not given counting as 0; the elements after
    the sixth play no part. For any other tuple it returns [str(d)]. *)
Theorem normalize_date_round_trip (str_d : str) (d : list Z) :
  (valid_datetime (take 6 d) = true →
   length (normalize_date str_d d) = 19%nat ∧
   iso_fields (normalize_date str_d d)
   = Some [nth 0 d 0; nth 1 d 0; nth 2 d 0; nth 3 d 0; nth 4 d 0; nth 5 d 0]%Z) ∧
  (valid_datetime (take 6 d) = false → normalize_date str_d d = str_d).
Proof.
  unfold normalize_date, datetime_isoformat. split; intros Hvalid; rewrite Hvalid; [|done].
  rewrite <- !(nth_take_lt d _ 6) by lia.
  destruct (take 6 d) as [|year [|month [|day rest]]]; try done.
  cbn [valid_datetime] in Hvalid. cbn [nth].
  repeat (apply andb_true_iff in Hvalid as [Hvalid ?]).
  repeat match goal with
         | Hb : (_ <=? _)%Z = true |- _ => apply Z.leb_le in Hb
         end.
  assert (day ≤ 31)%Z.
  { unfold days_in_month in *. repeat case_match; lia. }
  split; [done|]. cbn [pad4 pad2 app iso_fields].
  rewrite pad4_value, !pad2_value by lia. done.
Qed.

Lemma normalize_date_round_trip_witness :
  iso_fields (normalize_date [] [2024; 2; 29; 23; 59]%Z) = Some [2024; 2; 29; 23; 59; 0]%Z.
Proof.
  apply (proj1 (normalize_date_round_trip [] [2024; 2; 29; 23; 59]%Z)).
  vm_compute. reflexivity.
Defined.

(** ** Where the rows come from *)

Lemma entries_rows_in_order `{Unicode} `{Capabilities} keywords cities entries st :
  ∃ new, rows (fold_left (process_entry keywords cities) entries st) = rows st ++ new ∧
         (row_fields <$> new) `sublist_of` (entry_fields <$> entries).
Proof.
  revert st. induction entries as [|e entries IH]; intros st; simpl.
  - exists []. by rewrite app_nil_r.
  - destruct (IH (process_entry keywords cities st e)) as (new & -> & Hsub).
    destruct (process_entry_rows keywords cities st e) as [[-> _]|(-> & _)].
    + exists new. split; [done|]. by apply sublist_cons.
    + eexists (_ :: new). rewrite <- app_assoc. split; [done|].
      simpl. by apply sublist_skip.
Qed.

(** X13. The rows a keyword adds take their title, link and date unchanged
    from entries among the first 10 of its feed, in the order of the feed,
    no entry giving more than one row. *)
Theorem keyword_rows_in_feed_order `{Unicode} `{Capabilities}
    (keywords cities : list str) (st : Run) (kw : str) :
  ∃ new,
    rows (process_keyword keywords cities st kw) = rows st ++ new ∧
    (row_fields <$> new) `sublist_of`
      (entry_fields <$> take 10 (feedparser_parse (trace st) (build_google_news_rss kw))).
Proof.
  unfold process_keyword, fetch_rss_entries.
  apply (entries_rows_in_order keywords cities
           (take SEARCH_TOP (feedparser_parse (trace st) (build_google_news_rss kw)))
           {| trace := trace st ++ [FeedParse (build_google_news_rss kw)];
              rows := rows st; seen_keys := seen_keys st |}).
Qed.

(** ** How many names *)

Lemma size_add (x : str) (X : gset str) : (size ({[ x ]} ∪ X) ≤ 1 + size X)%nat.
Proof.
  rewrite size_union_alt, size_singleton.
  pose proof (subseteq_size (X ∖ {[ x ]}) X ltac:(set_solver)). lia.
Qed.

Lemma names_loop_size `{Unicode} (words : list str) (names : gset str) (i : nat) :
  (size (names_loop words names i) ≤ size names + (length words - i) / 2)%nat.
Proof.
  funelim (names_loop words names i).
  - lia.
  - match goal with IH : (_ ≤ _)%nat |- _ => etrans; [exact IH|] end.
    apply Nat.add_le_mono_l, Nat.Div0.div_le_mono. lia.
  - match goal with IH : (_ ≤ _)%nat |- _ => etrans; [exact IH|] end.
    destruct (name_run_spec words [nth i words []] (S i)) as (run & Hfst & _ & Hdrop).
    rewrite Hrun in Hfst, Hdrop. simpl in Hfst, Hdrop. subst name_parts.
    match goal with Hl : (2 <=? _)%nat = true |- _ => apply Nat.leb_le in Hl; simpl in Hl end.
    apply (f_equal length) in Hdrop. rewrite length_app, !length_drop in Hdrop.
    etrans; [apply Nat.add_le_mono_r, size_add|].
    assert (2 + (length words - j) ≤ length words - i)%nat as Hj by lia.
    pose proof (Nat.Div0.div_le_mono _ _ 2 Hj) as Hdiv.
    replace (2 + (length words - j))%nat with (1 * 2 + (length words - j))%nat in Hdiv by lia.
    rewrite Nat.add_comm, Nat.div_add in Hdiv by lia. lia.
  - match goal with IH : (_ ≤ _)%nat |- _ => etrans; [exact IH|] end.
    apply Nat.add_le_mono_l, Nat.Div0.div_le_mono. lia.
Qed.

(** X14. The extractor returns pairwise different names, at most one for
    every two words of the text. *)
Theorem names_count_bound `{Unicode} (text : str) :
  NoDup (extract_names_heuristic text) ∧
  (2 * length (extract_names_heuristic text) ≤ length (split text))%nat.
Proof.
  unfold extract_names_heuristic. split; [apply NoDup_elements|].
  pose proof (names_loop_size (split text) ∅ 0) as Hsize.
  rewrite size_empty, Nat.sub_0_r in Hsize.
  change (length (elements (names_loop (split text) ∅ 0)))
    with (size (names_loop (split text) ∅ 0)).
  pose proof (Nat.Div0.mul_div_le (length (split text)) 2). lia.
Qed.
